(** * TAFFO input-info metadata: the data structures of [TaffoUtils/InputInfo.h]

    A shallow embedding of the in-memory annotation model of namespace
    [mdutils]: the numeric type hierarchy ([TType], [FPType]), [Range],
    the annotation hierarchy ([MDInfo], [InputInfo], [StructInfo]) and
    [CmpErrorInfo], followed by the properties the specification states
    about them.

    Conventions.
    - A C++ [int] is a [Z] in [[-2^31, 2^31)], an [unsigned] a [Z] in
      [[0, 2^32)]; conversions between them are written out with
      [to_int] and [to_unsigned].
    - A [double] is an IEEE binary64 value ([PrimFloat.float]); the code
      only stores, copies and prints doubles.
    - A [std::shared_ptr<T>] that may be null is an [option]; where the
      identity of the pointee matters (cloning) objects live in a store
      [gmap loc object].
    - An operation that can hit an [assert] of LLVM ([llvm::cast], an
      index out of range) returns an [outcome]. *)

From Stdlib Require Import ZArith Ascii String List Lia DecimalString.
From Stdlib Require Import DecimalPos DecimalN.
From Stdlib Require Import Floats.PrimFloat.
From stdpp Require Import base option list gmap strings.

Import ListNotations.
Local Open Scope string_scope.
Local Open Scope Z_scope.

(** ** Machine integers *)

Definition int_modulus : Z := 2 ^ 32.
Definition int_half : Z := 2 ^ 31.

(** Conversion to [unsigned]: reduction modulo 2^32. *)
Definition to_unsigned (z : Z) : Z := z mod int_modulus.

(** Conversion to [int]: the two's-complement value of the low 32 bits. *)
Definition to_int (z : Z) : Z := (z + int_half) mod int_modulus - int_half.

Definition is_unsigned (z : Z) : Prop := 0 <= z < int_modulus.
Definition is_int (z : Z) : Prop := - int_half <= z < int_half.

(** [std::abs(int)].  [std::abs(INT_MIN)] is undefined in C++; the model
    gives it the two's-complement result (INT_MIN again). *)
Definition std_abs (z : Z) : Z := to_int (Z.abs z).

(** [std::ostream << unsigned]: decimal digits, no sign, no padding. *)
Definition show_unsigned (z : Z) : string :=
  NilZero.string_of_uint (N.to_uint (Z.to_N z)).

(** [std::ostream << int]: a minus sign for negative values. *)
Definition show_int (z : Z) : string :=
  if z <? 0 then "-" +:+ show_unsigned (- z) else show_unsigned z.

Definition double : Set := float.

(** ** Numeric types: [TType] and [FPType] *)

Definition FIXP_TYPE_FLAG : string := "fixp".

(** [enum TTypeKind { K_FPType }]. *)
Inductive TTypeKind : Set := K_FPType.

Definition TTypeKind_eqb (a b : TTypeKind) : bool :=
  match a, b with K_FPType, K_FPType => true end.

(** An object of class [FPType]: the [Kind] member of its [TType] base
    and its own members [Width] (negative if signed) and [PointPos]. *)
Record FPType : Set := mkFPType {
  Kind : TTypeKind;
  Width : Z;
  PointPos : Z
}.

(** A [TType] object seen through a base-class reference.  [TType] is
    abstract and [FPType] is its only subclass. *)
Inductive TType : Set :=
| TType_FPType (t : FPType).

(** The result of code that may stop at an assertion. *)
Inductive outcome (A : Type) : Type :=
| Returns (a : A)
| AssertFails.
Arguments Returns {A} a.
Arguments AssertFails {A}.

Definition bind_outcome {A B} (o : outcome A) (k : A -> outcome B) : outcome B :=
  match o with
  | Returns a => k a
  | AssertFails => AssertFails
  end.

Notation "x <~ e ;; k" := (bind_outcome e (fun x => k))
  (at level 100, e at next level, right associativity).

Module TTypeBase.

Definition getKind (t : TType) : TTypeKind :=
  match t with TType_FPType f => Kind f end.

(** [TType::operator==]: [Kind == b.Kind]. *)
Definition eq_op (a b : TType) : bool :=
  TTypeKind_eqb (getKind a) (getKind b).

(** [TType::toString] of the base class. *)
Definition toString : string := "TType".

End TTypeBase.

Module FPTypeOps.

(** [FPType(unsigned Width, unsigned PointPos, bool Signed = true)]:
    [Width((Signed) ? -Width : Width)].  The negation is computed in
    [unsigned] and the result converted to [int]. *)
Definition make_unsigned (W P : Z) (Signed : bool) : FPType :=
  mkFPType K_FPType
           (to_int (if Signed then to_unsigned (- W) else W))
           P.

(** [FPType(int Width, unsigned PointPos)]. *)
Definition make (W P : Z) : FPType := mkFPType K_FPType W P.

Definition getWidth (t : FPType) : Z := to_unsigned (std_abs (Width t)).
Definition getSWidth (t : FPType) : Z := Width t.
Definition getPointPos (t : FPType) : Z := PointPos t.
Definition isSigned (t : FPType) : bool := Width t <? 0.

(** [FPType::clone]: [new FPType(Width, PointPos)]. *)
Definition clone (t : FPType) : FPType := make (Width t) (PointPos t).

(** [FPType::toString].  [std::abs(Width)-PointPos] subtracts an
    [unsigned] from an [int]: both operands are converted to
    [unsigned] and the difference wraps modulo 2^32. *)
Definition toString (t : FPType) : string :=
  (if Width t <? 0 then "s" else "u")
    +:+ show_unsigned (to_unsigned (to_unsigned (std_abs (Width t)) - PointPos t))
    +:+ "_" +:+ show_unsigned (PointPos t) +:+ "fixp".

(** The canonical form as the specification words it:
    [{s|u}<intBits>_<fracBits>fixp] with [intBits] the total width
    minus the fractional bits. *)
Definition canonical_form (t : FPType) : string :=
  (if isSigned t then "s" else "u")
    +:+ show_int (getWidth t - getPointPos t)
    +:+ "_" +:+ show_unsigned (getPointPos t) +:+ "fixp".

(** [FPType::classof]. *)
Definition classof (t : TType) : bool :=
  TTypeKind_eqb (TTypeBase.getKind t) K_FPType.

(** [llvm::cast<FPType>(&b)]: asserts [classof]. *)
Definition cast (b : TType) : outcome FPType :=
  if classof b then match b with TType_FPType f => Returns f end
  else AssertFails.

(** [FPType::operator==]. *)
Definition eq_op (this : FPType) (b : TType) : outcome bool :=
  if negb (TTypeBase.eq_op (TType_FPType this) b) then Returns false
  else
    b2 <~ cast b ;;
    Returns ((Width this =? Width b2) && (PointPos this =? PointPos b2))%bool.

End FPTypeOps.

(** Virtual dispatch of [TType::toString] and [TType::clone]. *)
Definition TType_toString (t : TType) : string :=
  match t with TType_FPType f => FPTypeOps.toString f end.

Definition TType_clone (t : TType) : TType :=
  match t with TType_FPType f => TType_FPType (FPTypeOps.clone f) end.

(** ** [Range] *)

Record Range : Set := mkRange {
  Min : double;
  Max : double
}.

(** ** [CmpErrorInfo] *)

Record CmpErrorInfo : Set := mkCmpErrorInfo {
  MaxTolerance : double;
  MayBeWrong : bool
}.

Module CmpErrorInfoOps.

(** [CmpErrorInfo(double MaxTolerance, bool MayBeWrong = true)].  An
    omitted second argument is [None]. *)
Definition make (MaxTolerance : double) (MayBeWrong : option bool) : CmpErrorInfo :=
  mkCmpErrorInfo MaxTolerance (default true MayBeWrong).

End CmpErrorInfoOps.

(** ** Type descriptors of the host representation

    [llvm::Type] as this code consults it: whether it is a struct type
    and which types it contains.  A descriptor is a finite tree here;
    descriptors that reach themselves are those of a [TypeTable]. *)

#[local] Unset Elimination Schemes.
Inductive LLVMType : Set :=
| mkType (isStruct : bool) (ContainedTys : list LLVMType).
#[local] Set Elimination Schemes.

Module TypeOps.

Definition isStructTy (t : LLVMType) : bool :=
  match t with mkType s _ => s end.

Definition contained (t : LLVMType) : list LLVMType :=
  match t with mkType _ cs => cs end.

Definition getNumContainedTypes (t : LLVMType) : nat :=
  length (contained t).

(** [Type::getContainedType(i)] asserts [i < NumContainedTys]. *)
Definition getContainedType (t : LLVMType) (i : nat) : outcome LLVMType :=
  match contained t !! i with
  | Some c => Returns c
  | None => AssertFails
  end.

End TypeOps.

(** Sample descriptors: a scalar, a struct of two scalars, an array of
    such structs, and a struct whose second element is such a struct. *)
Definition scalar_ty : LLVMType := mkType false [].
Definition pair_ty : LLVMType := mkType true [scalar_ty; scalar_ty].
Definition array_of_pairs_ty : LLVMType := mkType false [pair_ty].
Definition nested_ty : LLVMType := mkType true [scalar_ty; pair_ty].

(** ** Annotations: [MDInfo], [InputInfo], [StructInfo] *)

(** [enum MDInfoKind { K_Struct, K_Field }]. *)
Inductive MDInfoKind : Set := K_Struct | K_Field.

(** The closed hierarchy below [MDInfo].  [InputInfo] holds three
    nullable shared pointers, [StructInfo] a vector of nullable shared
    pointers to [MDInfo]. *)
#[local] Unset Elimination Schemes.
Inductive MDInfo : Set :=
| InputInfo (IType : option TType) (IRange : option Range) (IError : option double)
| StructInfo (Fields : list (option MDInfo)).
#[local] Set Elimination Schemes.

Definition MDInfo_getKind (i : MDInfo) : MDInfoKind :=
  match i with
  | InputInfo _ _ _ => K_Field
  | StructInfo _ => K_Struct
  end.

Module InputInfoOps.

(** [InputInfo()]. *)
Definition make_empty : MDInfo := InputInfo None None None.

Definition classof (m : MDInfo) : bool :=
  match MDInfo_getKind m with K_Field => true | K_Struct => false end.

Section Printing.
(** [std::ostream << double] with the stream's default format. *)
Variable show_double : double -> string.

(** [InputInfo::toString], statement by statement: the stream
    [sstm] and the flag [first]. *)
Definition toString (IType : option TType) (IRange : option Range)
           (IError : option double) : string :=
  let sstm := "scalar(" in
  let first := true in
  let '(sstm, first) :=
    match IType with
    | Some t => (sstm +:+ "type(" +:+ TType_toString t +:+ ")", false)
    | None => (sstm, first)
    end in
  let '(sstm, first) :=
    match IRange with
    | Some r =>
        ((if negb first then sstm +:+ " " else sstm)
           +:+ "range(" +:+ show_double (Min r) +:+ ", "
           +:+ show_double (Max r) +:+ ")",
         false)
    | None => (sstm, first)
    end in
  let sstm :=
    match IError with
    | Some e =>
        (if negb first then sstm +:+ " " else sstm)
          +:+ "error(" +:+ show_double e +:+ ")"
    | None => sstm
    end in
  sstm +:+ ")".
End Printing.

End InputInfoOps.

Module StructInfoOps.

Definition classof (m : MDInfo) : bool :=
  match MDInfo_getKind m with K_Struct => true | K_Field => false end.

(** [StructInfo(int size)]: [size] null slots. *)
Definition make_sized (size : nat) : MDInfo := StructInfo (replicate size None).

(** [llvm::cast<StructInfo>(p)]: asserts [classof]; yields the fields. *)
Definition cast (m : MDInfo) : outcome (list (option MDInfo)) :=
  match m with
  | StructInfo fs => Returns fs
  | InputInfo _ _ _ => AssertFails
  end.

Definition size (Fields : list (option MDInfo)) : nat := length Fields.

(** [getField(I)]: [Fields[I]], asserting [I < size()]. *)
Definition getField (Fields : list (option MDInfo)) (I : nat)
  : outcome (option MDInfo) :=
  match Fields !! I with
  | Some f => Returns f
  | None => AssertFails
  end.

(** [StructInfo::constructFromLLVMType].  The loop over
    [i = 0 .. c-1] pushing [constructFromLLVMType(getContainedType(i))]
    is the map over the contained types. *)
Fixpoint constructFromLLVMType (t : LLVMType) : option MDInfo :=
  match t with
  | mkType isStruct cs =>
      match cs with
      | [] => None
      | c0 :: _ =>
          if isStruct
          then Some (StructInfo (map constructFromLLVMType cs))
          else constructFromLLVMType c0
      end
  end.

(** The loop of [resolveFromIndexList] over the remaining indices,
    from the current [resolvedType] and [resolvedInfo]. *)
Fixpoint resolve_loop (resolvedType : LLVMType) (resolvedInfo : option MDInfo)
         (indices : list nat) : outcome (option MDInfo) :=
  match indices with
  | [] => Returns resolvedInfo
  | idx :: rest =>
      match resolvedInfo with
      | None => Returns resolvedInfo
      | Some info =>
          if TypeOps.isStructTy resolvedType then
            ty <~ TypeOps.getContainedType resolvedType idx ;;
            fs <~ cast info ;;
            f <~ getField fs idx ;;
            resolve_loop ty f rest
          else
            ty <~ TypeOps.getContainedType resolvedType idx ;;
            resolve_loop ty resolvedInfo rest
      end
  end.

(** [StructInfo::resolveFromIndexList] on the struct with the given
    fields: [resolvedInfo] starts as [this].  This is the node that the
    loop computes; the shared pointer made from [this] and what it does
    to the receiver are in [resolveFromIndexList_rc]. *)
Definition resolveFromIndexList (Fields : list (option MDInfo))
           (type : LLVMType) (indices : list nat) : outcome (option MDInfo) :=
  resolve_loop type (Some (StructInfo Fields)) indices.

(** An index path all of whose steps go through non-struct types:
    at each step the current type is not a struct and the index
    selects one of its contained types. *)
Fixpoint traverses_nonstruct (t : LLVMType) (indices : list nat) : bool :=
  match indices with
  | [] => true
  | idx :: rest =>
      negb (TypeOps.isStructTy t) &&
      match TypeOps.contained t !! idx with
      | Some c => traverses_nonstruct c rest
      | None => false
      end
  end.

End StructInfoOps.

Section Printing.
Variable show_double : double -> string.

(** [MDInfo::toString] by virtual dispatch; the [StructInfo] case is
    [StructInfo::toString] with its loop over [Fields]. *)
Fixpoint MDInfo_toString (i : MDInfo) : string :=
  match i with
  | InputInfo t r e => InputInfoOps.toString show_double t r e
  | StructInfo fs =>
      let fix loop (fs : list (option MDInfo)) (first : bool) (sstm : string)
        : string :=
        match fs with
        | [] => sstm
        | i :: rest =>
            let sstm := if negb first then sstm +:+ ", " else sstm in
            let sstm :=
              match i with
              | Some x => sstm +:+ MDInfo_toString x
              | None => sstm +:+ "void()"
              end in
            loop rest false sstm
        end in
      loop fs true "struct(" +:+ ")"
  end.

(** The same loop, named, for stating facts about it. *)
Fixpoint toString_loop (fs : list (option MDInfo)) (first : bool) (sstm : string)
  : string :=
  match fs with
  | [] => sstm
  | i :: rest =>
      let sstm := if negb first then sstm +:+ ", " else sstm in
      let sstm :=
        match i with
        | Some x => sstm +:+ MDInfo_toString x
        | None => sstm +:+ "void()"
        end in
      toString_loop rest false sstm
  end.

(** *** The renderings as the specification words them *)

(** The fields of a scalar that are present, each rendered, in the
    order type, range, error. *)
Definition scalar_parts (IType : option TType) (IRange : option Range)
           (IError : option double) : list string :=
  match IType with
  | Some t => ["type(" +:+ TType_toString t +:+ ")"]
  | None => []
  end ++
  match IRange with
  | Some r => ["range(" +:+ show_double (Min r) +:+ ", "
                        +:+ show_double (Max r) +:+ ")"]
  | None => []
  end ++
  match IError with
  | Some e => ["error(" +:+ show_double e +:+ ")"]
  | None => []
  end.

(** [scalar(...)]: the present parts separated by single spaces. *)
Definition scalar_rendering (IType : option TType) (IRange : option Range)
           (IError : option double) : string :=
  "scalar(" +:+ String.concat " " (scalar_parts IType IRange IError) +:+ ")".

(** A slot: its own rendering, or [void()] when absent. *)
Definition slot_rendering (s : option MDInfo) : string :=
  match s with
  | Some x => MDInfo_toString x
  | None => "void()"
  end.

(** [struct(<slot0>, <slot1>, ...)]. *)
Definition struct_rendering (Fields : list (option MDInfo)) : string :=
  "struct(" +:+ String.concat ", " (map slot_rendering Fields) +:+ ")".

End Printing.

(** ** The object store

    For [clone] the identity of objects matters: a [shared_ptr] is a
    location of the store or null, and [new] allocates a location that
    is not in use. *)

Definition loc : Set := positive.

Inductive object : Set :=
| ObjTType (t : TType)
| ObjRange (r : Range)
| ObjDouble (d : double)
| ObjInputInfo (IType IRange IError : option loc)
| ObjStructInfo (Fields : list (option loc)).

Abbreviation heap := (gmap loc object).

(** Code that reads and allocates in the store.  [None]: the code
    dereferences a pointer that is dangling or of another class, or the
    recursion budget is exhausted. *)
Definition Heap (A : Type) : Type := heap -> option (A * heap).

Definition ret {A} (a : A) : Heap A := fun h => Some (a, h).

Definition bind {A B} (m : Heap A) (k : A -> Heap B) : Heap B :=
  fun h => match m h with
           | Some (a, h') => k a h'
           | None => None
           end.

Definition fail {A} : Heap A := fun _ => None.

Notation "x <- e ;;; k" := (bind e (fun x => k))
  (at level 100, e at next level, right associativity).

(** [new T(...)]: a fresh location holding the object. *)
Definition new (o : object) : Heap loc :=
  fun h => let l := fresh (dom h) in Some (l, <[l := o]> h).

(** [*p]. *)
Definition deref (p : loc) : Heap object :=
  fun h => match h !! p with
           | Some o => Some (o, h)
           | None => None
           end.

(** [p.get() ? new ... : nullptr] for a nullable pointer. *)
Definition clone_ptr (f : loc -> Heap loc) (p : option loc) : Heap (option loc) :=
  match p with
  | Some l => l' <- f l ;;; ret (Some l')
  | None => ret None
  end.

(** [IType->clone()]: virtual, [FPType::clone] allocates the copy. *)
Definition clone_TType (p : loc) : Heap loc :=
  o <- deref p ;;;
  match o with
  | ObjTType t => new (ObjTType (TType_clone t))
  | _ => fail
  end.

(** [new Range] of a copy of the pointee of [IRange]. *)
Definition clone_Range (p : loc) : Heap loc :=
  o <- deref p ;;;
  match o with
  | ObjRange r => new (ObjRange (mkRange (Min r) (Max r)))
  | _ => fail
  end.

(** [new double] of the pointee of [IError]. *)
Definition clone_double (p : loc) : Heap loc :=
  o <- deref p ;;;
  match o with
  | ObjDouble d => new (ObjDouble d)
  | _ => fail
  end.

(** The loop of [StructInfo::clone]: one [push_back] per old field. *)
Fixpoint clone_fields (f : loc -> Heap loc) (Fields : list (option loc))
  : Heap (list (option loc)) :=
  match Fields with
  | [] => ret []
  | oldF :: rest =>
      newF <- clone_ptr f oldF ;;;
      newFields <- clone_fields f rest ;;;
      ret (newF :: newFields)
  end.

(** [MDInfo::clone] by virtual dispatch on the object at [p]:
    [InputInfo::clone] or [StructInfo::clone].  The recursion follows
    pointers of the store, so it carries a budget. *)
Fixpoint MDInfo_clone (fuel : nat) (p : loc) : Heap loc :=
  match fuel with
  | O => fail
  | S fuel =>
      o <- deref p ;;;
      match o with
      | ObjInputInfo IType IRange IError =>
          NewIType <- clone_ptr clone_TType IType ;;;
          NewIRange <- clone_ptr clone_Range IRange ;;;
          NewIError <- clone_ptr clone_double IError ;;;
          new (ObjInputInfo NewIType NewIRange NewIError)
      | ObjStructInfo Fields =>
          newFields <- clone_fields (MDInfo_clone fuel) Fields ;;;
          new (ObjStructInfo newFields)
      | _ => fail
      end
  end.

(** *** Reading an annotation back from the store *)

Definition load_ptr {A} (f : loc -> option A) (p : option loc) : option (option A) :=
  match p with
  | Some l => Some <$> f l
  | None => Some None
  end.

Definition load_TType (h : heap) (p : loc) : option TType :=
  match h !! p with Some (ObjTType t) => Some t | _ => None end.

Definition load_Range (h : heap) (p : loc) : option Range :=
  match h !! p with Some (ObjRange r) => Some r | _ => None end.

Definition load_double (h : heap) (p : loc) : option double :=
  match h !! p with Some (ObjDouble d) => Some d | _ => None end.

(** The annotation tree that the object graph below [p] represents. *)
Fixpoint load (fuel : nat) (h : heap) (p : loc) : option MDInfo :=
  match fuel with
  | O => None
  | S fuel =>
      match h !! p with
      | Some (ObjInputInfo IType IRange IError) =>
          t ← load_ptr (load_TType h) IType;
          r ← load_ptr (load_Range h) IRange;
          e ← load_ptr (load_double h) IError;
          Some (InputInfo t r e)
      | Some (ObjStructInfo Fields) =>
          StructInfo <$> mapM (load_ptr (load fuel h)) Fields
      | _ => None
      end
  end.

(** A reader of the store is monotone when objects it has read stay
    readable in every larger store. *)
Definition monotone {A} (ld : heap -> loc -> option A) : Prop :=
  forall h h' p a, h ⊆ h' -> ld h p = Some a -> ld h' p = Some a.

(** [cl] copies what [ld] reads: from an object that reads as [a] it
    allocates, without touching the objects already there, an object
    that reads as [a] from the newly allocated part of the store alone. *)
Definition copies {A} (ld : heap -> loc -> option A) (cl : loc -> Heap loc) : Prop :=
  forall h p a,
    ld h p = Some a ->
    exists p' h', cl p h = Some (p', h') /\ h ⊆ h' /\ ld (h' ∖ h) p' = Some a.

(** Assignment of the three members of the [InputInfo] at [p]
    ([InputInfo::operator=], or a direct store to a member). *)
Definition assign_fields (p : loc) (IType IRange IError : option loc) (h : heap)
  : heap :=
  <[p := ObjInputInfo IType IRange IError]> h.

(** A sample store: a type, a range, a scalar that refers to both and
    has no error, and an aggregate whose slot 0 is that scalar and whose
    slot 1 is absent. *)
Definition sample_type : TType := TType_FPType (FPTypeOps.make (-32) 16).
Definition sample_range : Range := mkRange 0%float 1.5%float.

Definition sample_heap : heap :=
  <[4%positive := ObjStructInfo [Some 3%positive; None]]>
    (<[3%positive := ObjInputInfo (Some 1%positive) (Some 2%positive) None]>
       (<[2%positive := ObjRange sample_range]>
          (<[1%positive := ObjTType sample_type]> ∅))).

Definition sample_scalar : MDInfo :=
  InputInfo (Some sample_type) (Some sample_range) None.

Definition sample_struct : MDInfo := StructInfo [Some sample_scalar; None].

(** ** The metadata codec

    The bodies of [toMetadata], [createFromMetadata] and the
    [is...Metadata] predicates are not part of the header; the
    definitions of this section follow the node layouts and the decoding
    contract of the specification. *)

#[local] Unset Elimination Schemes.
(** Modelled from the spec: the generic attributed tree of the host's
    metadata store ([llvm::Metadata], not in the header): string,
    integer, real and boolean leaves, and nodes with an ordered list of
    operands. *)
Inductive Metadata : Set :=
| MDString (s : string)
| MDInt (z : Z)
| MDReal (d : double)
| MDFlag (b : bool)
| MDNode (operands : list Metadata).
#[local] Set Elimination Schemes.

Module Codec.

(** Modelled from the spec: the discriminator tags of the nodes other
    than the fixed-point type, whose tag [FIXP_TYPE_FLAG] the header
    defines.  The specification asks for a literal tag per kind and
    names none; these are named after the kind. *)
Definition RANGE_FLAG : string := "range".
Definition ERROR_FLAG : string := "error".
Definition SCALAR_FLAG : string := "scalar".
Definition STRUCT_FLAG : string := "struct".

(** Modelled from the spec: the explicit empty node that encodes an
    absent field or slot, and [IsNullInputInfoField], which
    recognises it. *)
Definition NullField : Metadata := MDNode [].

Definition IsNullInputInfoField (MD : Metadata) : bool :=
  match MD with
  | MDNode [] => true
  | _ => false
  end.

(** Modelled from the spec: [createDoubleMDNode] and
    [retrieveDoubleMDNode], a real-valued leaf. *)
Definition createDoubleMDNode (Value : double) : Metadata := MDReal Value.

Definition retrieveDoubleMDNode (MDN : Metadata) : option double :=
  match MDN with
  | MDReal d => Some d
  | _ => None
  end.

(** Modelled from the spec: [FPType::toMetadata], layout
    [[tag, signedWidthField, fractionalBitsField]]. *)
Definition FPType_toMetadata (t : FPType) : Metadata :=
  MDNode [MDString FIXP_TYPE_FLAG;
          MDInt (FPTypeOps.getSWidth t);
          MDInt (FPTypeOps.getPointPos t)].

(** Modelled from the spec: [FPType::isFPTypeMetadata], the tag check
    alone. *)
Definition isFPTypeMetadata (MDN : Metadata) : bool :=
  match MDN with
  | MDNode (MDString flag :: _) => String.eqb flag FIXP_TYPE_FLAG
  | _ => false
  end.

(** Modelled from the spec: [FPType::createFromMetadata]; a wrong tag
    or arity decodes to absent. *)
Definition FPType_createFromMetadata (MDN : Metadata) : option FPType :=
  if isFPTypeMetadata MDN then
    match MDN with
    | MDNode [_; MDInt w; MDInt p] => Some (FPTypeOps.make w p)
    | _ => None
    end
  else None.

(** Modelled from the spec: [TType::toMetadata] (virtual) and
    [TType::createFromMetadata], which tries each known tag. *)
Definition TType_toMetadata (t : TType) : Metadata :=
  match t with TType_FPType f => FPType_toMetadata f end.

Definition TType_createFromMetadata (MDN : Metadata) : option TType :=
  if isFPTypeMetadata MDN
  then TType_FPType <$> FPType_createFromMetadata MDN
  else None.

(** Modelled from the spec: [Range::toMetadata],
    [Range::isRangeMetadata] and [Range::createFromMetadata], layout
    [[tag, minField, maxField]]. *)
Definition Range_toMetadata (r : Range) : Metadata :=
  MDNode [MDString RANGE_FLAG;
          createDoubleMDNode (Min r);
          createDoubleMDNode (Max r)].

Definition isRangeMetadata (MD : Metadata) : bool :=
  match MD with
  | MDNode (MDString flag :: _) => String.eqb flag RANGE_FLAG
  | _ => false
  end.

Definition Range_createFromMetadata (MDN : Metadata) : option Range :=
  if isRangeMetadata MDN then
    match MDN with
    | MDNode [_; mn; mx] =>
        Min ← retrieveDoubleMDNode mn;
        Max ← retrieveDoubleMDNode mx;
        Some (mkRange Min Max)
    | _ => None
    end
  else None.

(** Modelled from the spec: [InitialErrorToMetadata],
    [IsInitialErrorMetadata] and [CreateInitialErrorFromMetadata]: a
    presence tag and one real-valued leaf. *)
Definition InitialErrorToMetadata (Error : double) : Metadata :=
  MDNode [MDString ERROR_FLAG; createDoubleMDNode Error].

Definition IsInitialErrorMetadata (MD : Metadata) : bool :=
  match MD with
  | MDNode (MDString flag :: _) => String.eqb flag ERROR_FLAG
  | _ => false
  end.

Definition CreateInitialErrorFromMetadata (MDN : Metadata) : option double :=
  if IsInitialErrorMetadata MDN then
    match MDN with
    | MDNode [_; e] => retrieveDoubleMDNode e
    | _ => None
    end
  else None.

(** Modelled from the spec: [CmpErrorInfo::toMetadata] and
    [CmpErrorInfo::createFromMetadata], layout
    [[toleranceField, mayBeWrongFlag]]. *)
Definition CmpErrorInfo_toMetadata (c : CmpErrorInfo) : Metadata :=
  MDNode [createDoubleMDNode (MaxTolerance c); MDFlag (MayBeWrong c)].

Definition CmpErrorInfo_createFromMetadata (MDN : Metadata) : option CmpErrorInfo :=
  match MDN with
  | MDNode [tol; MDFlag w] =>
      t ← retrieveDoubleMDNode tol;
      Some (mkCmpErrorInfo t w)
  | _ => None
  end.

(** Modelled from the spec: an optional child reference, encoded as
    the child's node or as the empty node. *)
Definition field_toMetadata {A} (enc : A -> Metadata) (f : option A) : Metadata :=
  match f with
  | Some a => enc a
  | None => NullField
  end.

Definition field_createFromMetadata {A} (dec : Metadata -> option A)
           (MD : Metadata) : option (option A) :=
  if IsNullInputInfoField MD then Some None else Some <$> dec MD.

(** Modelled from the spec: [MDInfo::toMetadata] (virtual).  A scalar
    is the composite of its three optional children, an aggregate the
    ordered list of its slots; both carry their tag. *)
Fixpoint MDInfo_toMetadata (i : MDInfo) : Metadata :=
  match i with
  | InputInfo t r e =>
      MDNode [MDString SCALAR_FLAG;
              field_toMetadata TType_toMetadata t;
              field_toMetadata Range_toMetadata r;
              field_toMetadata InitialErrorToMetadata e]
  | StructInfo fs =>
      MDNode (MDString STRUCT_FLAG
                :: map (field_toMetadata MDInfo_toMetadata) fs)
  end.

(** Modelled from the spec: [InputInfo::isInputInfoMetadata], the tag
    check alone. *)
Definition isInputInfoMetadata (MD : Metadata) : bool :=
  match MD with
  | MDNode (MDString flag :: _) => String.eqb flag SCALAR_FLAG
  | _ => false
  end.

(** Modelled from the spec: decoding of an annotation node.  The tag
    selects scalar or aggregate; a scalar needs exactly three
    children; any mismatch below decodes to absent. *)
Fixpoint MDInfo_createFromMetadata (MD : Metadata) : option MDInfo :=
  match MD with
  | MDNode (MDString flag :: ops) =>
      if String.eqb flag SCALAR_FLAG then
        match ops with
        | [t; r; e] =>
            IType ← field_createFromMetadata TType_createFromMetadata t;
            IRange ← field_createFromMetadata Range_createFromMetadata r;
            IError ← field_createFromMetadata CreateInitialErrorFromMetadata e;
            Some (InputInfo IType IRange IError)
        | _ => None
        end
      else if String.eqb flag STRUCT_FLAG then
        let fix slots (ops : list Metadata) : option (list (option MDInfo)) :=
          match ops with
          | [] => Some []
          | o :: rest =>
              f ← (if IsNullInputInfoField o then Some None
                   else Some <$> MDInfo_createFromMetadata o);
              fs ← slots rest;
              Some (f :: fs)
          end in
        StructInfo <$> slots ops
      else None
  | _ => None
  end.

(** The slot loop of [MDInfo_createFromMetadata], named, for stating
    facts about it. *)
Fixpoint createFromMetadata_slots (ops : list Metadata)
  : option (list (option MDInfo)) :=
  match ops with
  | [] => Some []
  | o :: rest =>
      f ← (if IsNullInputInfoField o then Some None
           else Some <$> MDInfo_createFromMetadata o);
      fs ← createFromMetadata_slots rest;
      Some (f :: fs)
  end.

End Codec.

(** ** Notions for the properties of shape derivation and resolution *)

(** An annotation without any scalar: every slot is absent or again
    such an aggregate. *)
Fixpoint is_skeleton (i : MDInfo) : bool :=
  match i with
  | InputInfo _ _ _ => false
  | StructInfo fs =>
      forallb (fun f => match f with
                        | Some x => is_skeleton x
                        | None => true
                        end) fs
  end.

(** [subnode r i]: the node [r] occurs in the annotation [i], at the
    root or below one of its slots. *)
Inductive subnode (r : MDInfo) : MDInfo -> Prop :=
| subnode_here : subnode r r
| subnode_slot fs c : Some c ∈ fs -> subnode r c -> subnode r (StructInfo fs).

(** The number of objects that represent an annotation when nothing is
    shared: the node itself, its present fields, and the objects of its
    present slots. *)
Definition present {A} (o : option A) : nat :=
  match o with Some _ => 1%nat | None => O end.

Fixpoint object_count (i : MDInfo) : nat :=
  match i with
  | InputInfo t r e => S (present t + present r + present e)%nat
  | StructInfo fs =>
      S (fold_right (fun f acc => (match f with
                                   | Some x => object_count x
                                   | None => O
                                   end + acc)%nat) O fs)
  end.

(** Decimal digits, and strings made of them only: what
    [show_unsigned] produces. *)
Definition is_digit (c : Ascii.ascii) : bool :=
  match c with
  | "0" | "1" | "2" | "3" | "4" | "5" | "6" | "7" | "8" | "9" => true
  | _ => false
  end%char.

Fixpoint digits_only (s : string) : bool :=
  match s with
  | EmptyString => true
  | String c r => is_digit c && digits_only r
  end.

(** The objects of a vector of slots. *)
Definition slots_count (vs : list (option MDInfo)) : nat :=
  fold_right (fun f acc => (match f with
                            | Some x => object_count x
                            | None => O
                            end + acc)%nat) O vs.

(** ** Type descriptors that may contain themselves

    The types of a context are shared objects, and a struct can be
    reached from itself through a pointer-like wrapper.  Here a
    descriptor is an entry of a table, named by its address, and holds
    the addresses of its contained types. *)

Definition TypeId : Set := positive.

Record TypeDesc : Set := mkDesc {
  descIsStruct : bool;
  descContained : list TypeId
}.

Abbreviation TypeTable := (gmap TypeId TypeDesc).

(** [StructInfo::constructFromLLVMType] over a table.  The recursion
    follows the table, so it carries a budget; the outer [None] says
    that the call has not returned within the budget (or that the
    address is not a type of the table), [Some r] that it has returned
    [r]. *)
Fixpoint constructFromLLVMType_in (fuel : nat) (tbl : TypeTable) (t : TypeId)
  : option (option MDInfo) :=
  match fuel with
  | O => None
  | S fuel =>
      match tbl !! t with
      | None => None
      | Some d =>
          match descContained d with
          | [] => Some None
          | c0 :: _ =>
              if descIsStruct d then
                fields ← mapM (constructFromLLVMType_in fuel tbl) (descContained d);
                Some (Some (StructInfo fields))
              else constructFromLLVMType_in fuel tbl c0
          end
      end
  end.


(** The finite tree that a descriptor of finite nesting unfolds to. *)
Fixpoint unfold_type (n : nat) (tbl : TypeTable) (t : TypeId) : option LLVMType :=
  match n with
  | O => None
  | S n =>
      match tbl !! t with
      | None => None
      | Some d =>
          mkType (descIsStruct d) <$> mapM (unfold_type n tbl) (descContained d)
      end
  end.

(** A list node: a struct of a scalar and a pointer to the struct
    itself. *)
Definition list_node_table : TypeTable :=
  <[1%positive := mkDesc true [3%positive; 2%positive]]>
    (<[2%positive := mkDesc false [1%positive]]>
       (<[3%positive := mkDesc false []]> ∅)).


(** ** The hierarchy below [TType] with further variants

    [TTypeKind] has the one enumerator [K_FPType] and [FPType] is the
    one class below [TType].  To say what [operator==] does against an
    object of another variant, the enumeration is taken here with the
    enumerators [OtherKind] that further variants add; with no such
    enumerator it is the enumeration of the header. *)

Module Variants.
Section Tags.
Context {OtherKind : Type} `{EqDecision OtherKind}.

Inductive TTypeKind : Type :=
| K_FPType
| K_Other (k : OtherKind).

#[local] Instance TTypeKind_eq_dec : EqDecision TTypeKind.
Proof. solve_decision. Defined.

(** An object of a class below [TType] as [operator==] can reach it:
    the [Kind] member of the base, and the two members that a downcast
    to [FPType] reads as [Width] and [PointPos]. *)
Record TTypeObject : Type := mkObject {
  getKind : TTypeKind;
  rawWidth : Z;
  rawPointPos : Z
}.

(** An [FPType] object: its constructors pass [K_FPType] to the base. *)
Definition of_FPType (W P : Z) : TTypeObject := mkObject K_FPType W P.

(** [TType::operator==]. *)
Definition base_eq_op (a b : TTypeObject) : bool :=
  bool_decide (getKind a = getKind b).

(** [FPType::classof]. *)
Definition classof (t : TTypeObject) : bool :=
  bool_decide (getKind t = K_FPType).

(** [llvm::cast<FPType>(&b)]: asserts [classof], then reads the object
    as an [FPType]. *)
Definition cast (b : TTypeObject) : outcome (Z * Z) :=
  if classof b then Returns (rawWidth b, rawPointPos b) else AssertFails.

(** [FPType::operator==] of the [FPType] with members [Width] and
    [PointPos]. *)
Definition eq_op (Width PointPos : Z) (b : TTypeObject) : outcome bool :=
  if negb (base_eq_op (of_FPType Width PointPos) b) then Returns false
  else
    b2 <~ cast b ;;
    Returns ((Width =? fst b2) && (PointPos =? snd b2))%bool.

End Tags.
End Variants.

(** A [TType] object of the header's hierarchy among the objects of
    the hierarchy without further variants. *)
Definition TType_object (t : TType) : @Variants.TTypeObject Empty_set :=
  match t with
  | TType_FPType f => Variants.of_FPType (Width f) (PointPos f)
  end.

(** ** Ownership: shared pointers and their control blocks

    [resolveFromIndexList] makes a [std::shared_ptr] from [this], so
    what it does depends on who owns the receiver.  In this store every
    object records how its storage was obtained, a shared pointer is a
    pointer together with the control block that counts its owners, and
    the control block that loses its last owner deletes the object it
    manages. *)

Definition block : Set := positive.

(** A non-null [std::shared_ptr<T>]. *)
Record shared : Set := mkShared {
  pointee : loc;
  control : block
}.

(** [new T(...)], or [std::make_shared<T>(...)], which puts the object
    into its control block. *)
Inductive provenance : Set :=
| FromNew
| FromMakeShared (b : block).

Inductive rc_object : Set :=
| RcTType (t : TType)
| RcRange (r : Range)
| RcDouble (d : double)
| RcInputInfo (IType IRange IError : option shared)
| RcStructInfo (Fields : list (option shared)).

(** The live objects, and the control blocks in use with the object
    each manages and its use count. *)
Record rc_store : Type := mkStore {
  objs : gmap loc (rc_object * provenance);
  blocks : gmap block (loc * nat)
}.

Inductive undefined_behaviour : Set :=
| InvalidFree
| DoubleFree
| UseAfterFree
| DeadControlBlock.

(** How a call ends: it returns, it stops at an assertion, it runs into
    undefined behaviour, or the budget of the model is used up. *)
Inductive run (A : Type) : Type :=
| Ok (a : A) (st : rc_store)
| Asserts
| Undefined (u : undefined_behaviour)
| OutOfBudget.
Arguments Ok {A} a st.
Arguments Asserts {A}.
Arguments Undefined {A} u.
Arguments OutOfBudget {A}.

Definition Rc (A : Type) : Type := rc_store -> run A.

Definition rc_ret {A} (a : A) : Rc A := fun st => Ok a st.

Definition rc_bind {A B} (m : Rc A) (k : A -> Rc B) : Rc B :=
  fun st => match m st with
            | Ok a st' => k a st'
            | Asserts => Asserts
            | Undefined u => Undefined u
            | OutOfBudget => OutOfBudget
            end.

Notation "x <~~ e ;; k" := (rc_bind e (fun x => k))
  (at level 100, e at next level, right associativity).

(** An assertion of LLVM inside store code. *)
Definition rc_assert {A} (o : outcome A) : Rc A :=
  fun st => match o with
            | Returns a => Ok a st
            | AssertFails => Asserts
            end.

(** [std::shared_ptr<T>(p)] from a raw pointer: a new control block
    that manages [p], with one owner. *)
Definition shared_of_raw (p : loc) : Rc shared :=
  fun st =>
    let b := fresh (dom (blocks st)) in
    Ok (mkShared p b) (mkStore (objs st) (<[b := (p, 1%nat)]> (blocks st))).

(** [std::make_shared<T>(o)]: object and control block in one
    allocation, with one owner. *)
Definition make_shared (o : rc_object) : Rc shared :=
  fun st =>
    let l := fresh (dom (objs st)) in
    let b := fresh (dom (blocks st)) in
    Ok (mkShared l b)
       (mkStore (<[l := (o, FromMakeShared b)]> (objs st))
                (<[b := (l, 1%nat)]> (blocks st))).

(** Copying a shared pointer: one more owner in its control block. *)
Definition copy_shared (sp : option shared) : Rc (option shared) :=
  match sp with
  | None => rc_ret None
  | Some s =>
      fun st =>
        match blocks st !! control s with
        | None => Undefined DeadControlBlock
        | Some (target, n) =>
            Ok (Some s)
               (mkStore (objs st) (<[control s := (target, S n)]> (blocks st)))
        end
  end.

(** [*p] through a raw pointer. *)
Definition rc_deref (p : loc) : Rc rc_object :=
  fun st =>
    match objs st !! p with
    | Some (o, _) => Ok o st
    | None => Undefined UseAfterFree
    end.

(** The shared pointers an object holds, in the order in which its
    destructor releases them (members and vector elements last to
    first). *)
Definition members (o : rc_object) : list shared :=
  match o with
  | RcInputInfo IType IRange IError => omap id [IError; IRange; IType]
  | RcStructInfo Fields => omap id (rev Fields)
  | _ => []
  end.

(** [delete p] is valid for an object from [new], and for the object
    inside a control block only when that block itself disposes of
    it. *)
Definition may_delete (prov : provenance) (by_block : block) : bool :=
  match prov with
  | FromNew => true
  | FromMakeShared b => bool_decide (b = by_block)
  end.

Fixpoint release_all (release : shared -> Rc unit) (sps : list shared) : Rc unit :=
  match sps with
  | [] => rc_ret tt
  | sp :: rest => _ <~~ release sp ;; release_all release rest
  end.

(** A shared pointer goes away.  The use count drops; the last owner's
    control block deletes the managed object, whose destructor releases
    the shared pointers it holds.  An object from [new] that another
    control block manages as well is deleted all the same and leaves
    that block dangling: a later release through it is a double
    free. *)
Fixpoint release (fuel : nat) (sp : shared) : Rc unit :=
  match fuel with
  | O => fun _ => OutOfBudget
  | S fuel =>
      fun st =>
        match blocks st !! control sp with
        | None => Undefined DeadControlBlock
        | Some (target, n) =>
            if (1 <? n)%nat then
              Ok tt (mkStore (objs st)
                             (<[control sp := (target, pred n)]> (blocks st)))
            else
              match objs st !! target with
              | None => Undefined DoubleFree
              | Some (o, prov) =>
                  if may_delete prov (control sp) then
                    release_all (release fuel) (members o)
                                (mkStore (delete target (objs st))
                                         (delete (control sp) (blocks st)))
                  else Undefined InvalidFree
              end
        end
  end.

Definition release_opt (fuel : nat) (sp : option shared) : Rc unit :=
  match sp with
  | Some s => release fuel s
  | None => rc_ret tt
  end.

(** [llvm::cast<StructInfo>(p)] on an object of the store. *)
Definition rc_cast_StructInfo (o : rc_object) : outcome (list (option shared)) :=
  match o with
  | RcStructInfo fs => Returns fs
  | _ => AssertFails
  end.

(** [getField(I)] of the non-const overload: a copy of [Fields[I]]. *)
Definition rc_getField (Fields : list (option shared)) (I : nat)
  : outcome (option shared) :=
  match Fields !! I with
  | Some f => Returns f
  | None => AssertFails
  end.

(** The loop of [resolveFromIndexList] with its shared pointers.  At a
    struct step the right-hand side [getField(idx)] is a copy of the
    field; assigning it to [resolvedInfo] releases what [resolvedInfo]
    held before. *)
Fixpoint resolve_loop_rc (fuel : nat) (resolvedType : LLVMType)
         (resolvedInfo : option shared) (indices : list nat)
  : Rc (option shared) :=
  match indices with
  | [] => rc_ret resolvedInfo
  | idx :: rest =>
      match resolvedInfo with
      | None => rc_ret resolvedInfo
      | Some held =>
          if TypeOps.isStructTy resolvedType then
            ty <~~ rc_assert (TypeOps.getContainedType resolvedType idx) ;;
            o <~~ rc_deref (pointee held) ;;
            fs <~~ rc_assert (rc_cast_StructInfo o) ;;
            f <~~ rc_assert (rc_getField fs idx) ;;
            field <~~ copy_shared f ;;
            _ <~~ release fuel held ;;
            resolve_loop_rc fuel ty field rest
          else
            ty <~~ rc_assert (TypeOps.getContainedType resolvedType idx) ;;
            resolve_loop_rc fuel ty resolvedInfo rest
      end
  end.

(** [StructInfo::resolveFromIndexList] on the receiver at [this]:
    [std::shared_ptr<MDInfo> resolvedInfo(this)] makes a control block
    of its own for the receiver, whoever owns it already. *)
Definition resolveFromIndexList_rc (fuel : nat) (this : loc) (type : LLVMType)
           (indices : list nat) : Rc (option shared) :=
  resolvedInfo <~~ shared_of_raw this ;;
  resolve_loop_rc fuel type (Some resolvedInfo) indices.

(** [StructInfo::constructFromLLVMType] on the store: the result comes
    from [std::make_shared].  The copies made and dropped on the way
    (the argument of [push_back], the local vector, the temporary
    [StructInfo]) leave each field with its one owner, the new
    object. *)
Fixpoint constructFromLLVMType_rc (t : LLVMType) : Rc (option shared) :=
  match t with
  | mkType isStruct cs =>
      match cs with
      | [] => rc_ret None
      | c0 :: _ =>
          if isStruct then
            fields <~~ (fix all (cs : list LLVMType) : Rc (list (option shared)) :=
                          match cs with
                          | [] => rc_ret []
                          | c :: rest =>
                              f <~~ constructFromLLVMType_rc c ;;
                              fs <~~ all rest ;;
                              rc_ret (f :: fs)
                          end) cs ;;
            sp <~~ make_shared (RcStructInfo fields) ;;
            rc_ret (Some sp)
          else constructFromLLVMType_rc c0
      end
  end.

Definition empty_store : rc_store := mkStore ∅ ∅.

(** The annotation tree that the objects below a shared pointer
    represent. *)
Definition rc_load_ptr {A} (f : loc -> option A) (p : option shared)
  : option (option A) :=
  match p with
  | Some s => Some <$> f (pointee s)
  | None => Some None
  end.

Definition rc_load_TType (st : rc_store) (p : loc) : option TType :=
  match objs st !! p with Some (RcTType t, _) => Some t | _ => None end.

Definition rc_load_Range (st : rc_store) (p : loc) : option Range :=
  match objs st !! p with Some (RcRange r, _) => Some r | _ => None end.

Definition rc_load_double (st : rc_store) (p : loc) : option double :=
  match objs st !! p with Some (RcDouble d, _) => Some d | _ => None end.

Fixpoint rc_load (fuel : nat) (st : rc_store) (p : loc) : option MDInfo :=
  match fuel with
  | O => None
  | S fuel =>
      match objs st !! p with
      | Some (RcInputInfo IType IRange IError, _) =>
          t ← rc_load_ptr (rc_load_TType st) IType;
          r ← rc_load_ptr (rc_load_Range st) IRange;
          e ← rc_load_ptr (rc_load_double st) IError;
          Some (InputInfo t r e)
      | Some (RcStructInfo Fields, _) =>
          StructInfo <$> mapM (rc_load_ptr (rc_load fuel st)) Fields
      | _ => None
      end
  end.

(** A receiver from plain [new] that no shared pointer owns: an
    aggregate whose slot 0 is absent and whose slot 1 is an aggregate
    of a scalar and an absent slot, each held through [make_shared]. *)
Definition unowned_store : rc_store :=
  mkStore
    (<[3%positive := (RcStructInfo [None; Some (mkShared 2%positive 2%positive)],
                      FromNew)]>
       (<[2%positive := (RcStructInfo [Some (mkShared 1%positive 1%positive); None],
                         FromMakeShared 2%positive)]>
          (<[1%positive := (RcInputInfo None None None,
                            FromMakeShared 1%positive)]> ∅)))
    (<[2%positive := (2%positive, 1%nat)]>
       (<[1%positive := (1%positive, 1%nat)]> ∅)).

(** The same aggregate with a receiver from [make_shared], owned by the
    shared pointer that [make_shared] returned. *)
Definition owned_store : rc_store :=
  mkStore
    (<[3%positive := (RcStructInfo [None; Some (mkShared 2%positive 2%positive)],
                      FromMakeShared 3%positive)]>
       (<[2%positive := (RcStructInfo [Some (mkShared 1%positive 1%positive); None],
                         FromMakeShared 2%positive)]>
          (<[1%positive := (RcInputInfo None None None,
                            FromMakeShared 1%positive)]> ∅)))
    (<[3%positive := (3%positive, 1%nat)]>
       (<[2%positive := (2%positive, 1%nat)]>
          (<[1%positive := (1%positive, 1%nat)]> ∅))).

(** * Properties *)

(** ** Machine integers *)

Lemma to_unsigned_small z : is_unsigned z -> to_unsigned z = z.
Proof. unfold is_unsigned, to_unsigned. intros H. apply Z.mod_small. exact H. Qed.

Lemma to_int_small z : is_int z -> to_int z = z.
Proof.
  unfold is_int, to_int, int_half, int_modulus. intros H.
  rewrite Z.mod_small; lia.
Qed.

Lemma to_unsigned_opp w :
  0 < w <= int_modulus -> to_unsigned (- w) = int_modulus - w.
Proof.
  unfold to_unsigned, int_modulus. intros H.
  symmetry. apply (Z.mod_unique _ _ (-1)); lia.
Qed.

Lemma to_int_high z :
  int_half <= z < int_modulus -> to_int z = z - int_modulus.
Proof.
  unfold to_int, int_half, int_modulus. intros H.
  assert (E : (z + 2 ^ 31) mod 2 ^ 32 = z - 2 ^ 31).
  { symmetry. apply (Z.mod_unique _ _ 1); lia. }
  rewrite E. lia.
Qed.

Lemma std_abs_small z : - int_half < z < int_half -> std_abs z = Z.abs z.
Proof.
  intros H. unfold std_abs. apply to_int_small. unfold is_int, int_half in *. lia.
Qed.

(** ** [FPType] *)

Section FPTypeFacts.
Import FPTypeOps.

(** The stored width after the three-argument constructor, for a
    width that fits the sign encoding. *)
Lemma make_unsigned_Width w p s :
  0 <= w < int_half ->
  Width (make_unsigned w p s) = if s then - w else w.
Proof.
  intros Hw. unfold make_unsigned. cbn [Width]. destruct s.
  - destruct (Z.eq_dec w 0) as [->|Hne].
    + reflexivity.
    + rewrite to_unsigned_opp by (unfold int_half, int_modulus in *; lia).
      rewrite to_int_high by (unfold int_half, int_modulus in *; lia). lia.
  - apply to_int_small. unfold is_int, int_half in *. lia.
Qed.

Lemma getWidth_abs t :
  - int_half < Width t < int_half -> getWidth t = Z.abs (Width t).
Proof.
  intros H. unfold getWidth. rewrite std_abs_small by exact H.
  apply to_unsigned_small. unfold is_unsigned, int_half, int_modulus in *. lia.
Qed.

(** C9 (as stated): the claim quantifies over every [unsigned] width
    above zero; the sign encoding cannot hold a width above [2^31]. *)
Lemma make_unsigned_accessors_fail_wide :
  ~ (forall w p (s : bool),
        is_unsigned w -> is_unsigned p -> 0 < w ->
        getWidth (make_unsigned w p s) = w /\
        getPointPos (make_unsigned w p s) = p /\
        isSigned (make_unsigned w p s) = s).
Proof.
  intros H.
  destruct (H 2147483649 16 true) as (_ & _ & Hs);
    try (unfold is_unsigned, int_modulus; lia).
  vm_compute in Hs. discriminate Hs.
Qed.

(** C9 (amended): for every width [0 < w < 2^31] the constructed type
    has [getWidth() == w], [getPointPos() == p] and
    [isSigned() == Signed]; for width zero with [Signed == true],
    [isSigned()] is false. *)
Theorem make_unsigned_accessors w p (s : bool) :
  0 < w < int_half ->
  (getWidth (make_unsigned w p s) = w /\
   getPointPos (make_unsigned w p s) = p /\
   isSigned (make_unsigned w p s) = s) /\
  isSigned (make_unsigned 0 p true) = false.
Proof.
  intros Hw. split; [|reflexivity].
  assert (HW : Width (make_unsigned w p s) = if s then - w else w)
    by (apply make_unsigned_Width; lia).
  split; [|split].
  - rewrite getWidth_abs; rewrite HW; destruct s; lia.
  - reflexivity.
  - unfold isSigned. rewrite HW. destruct s.
    + apply Z.ltb_lt. lia.
    + apply Z.ltb_ge. lia.
Qed.

Lemma make_unsigned_accessors_witness :
  0 < 32 < int_half /\
  ((getWidth (make_unsigned 32 16 true) = 32 /\
    getPointPos (make_unsigned 32 16 true) = 16 /\
    isSigned (make_unsigned 32 16 true) = true) /\
   isSigned (make_unsigned 0 16 true) = false).
Proof.
  split.
  - unfold int_half. lia.
  - apply (make_unsigned_accessors 32 16 true). unfold int_half. lia.
Defined.

(** The two renderings the specification lists. *)
Example toString_s16_16 : toString (make (-32) 16) = "s16_16fixp".
Proof. reflexivity. Qed.

Example toString_u8_8 : toString (make 16 8) = "u8_8fixp".
Proof. reflexivity. Qed.

(** X14: [toString] has the canonical form whenever the fractional
    bits do not exceed the total width. *)
Lemma toString_canonical t :
  - int_half < Width t < int_half ->
  0 <= PointPos t <= Z.abs (Width t) ->
  toString t = canonical_form t.
Proof.
  intros HW HP. unfold toString, canonical_form, isSigned, getPointPos.
  rewrite getWidth_abs by exact HW.
  rewrite std_abs_small by exact HW.
  rewrite (to_unsigned_small (Z.abs (Width t)))
    by (unfold is_unsigned, int_half, int_modulus in *; lia).
  rewrite to_unsigned_small
    by (unfold is_unsigned, int_half, int_modulus in *; lia).
  unfold show_int.
  replace (Z.abs (Width t) - PointPos t <? 0) with false
    by (symmetry; apply Z.ltb_ge; lia).
  reflexivity.
Qed.

(** C5: [toString] is meant to print the integer bits as total width
    minus fractional bits.  With more fractional bits than width the
    subtraction wraps: for width 8 and 16 fractional bits the code
    prints 4294967288 where the canonical form has -8. *)
Theorem toString_wraps_when_fraction_exceeds_width :
  toString (make 8 16) = "u4294967288_16fixp" /\
  canonical_form (make 8 16) = "u-8_16fixp".
Proof. split; reflexivity. Qed.

(** In the hierarchy of the header, [operator==] returns without
    failing the downcast, and it returns true exactly when both
    operands carry the same pair of signed width and fractional
    bits. *)
Lemma eq_op_spec (this : FPType) (b : TType) :
  (exists r, eq_op this b = Returns r) /\
  (eq_op this b = Returns true <->
   TTypeBase.getKind (TType_FPType this) = TTypeBase.getKind b /\
   match b with
   | TType_FPType b2 =>
       getSWidth this = getSWidth b2 /\ getPointPos this = getPointPos b2
   end).
Proof.
  destruct this as [k w p], b as [[k2 w2 p2]].
  destruct k, k2. unfold eq_op. cbn. split.
  - eauto.
  - split.
    + intros H. injection H as H. apply andb_true_iff in H as [H1 H2].
      apply Z.eqb_eq in H1, H2. auto.
    + intros (_ & -> & ->). rewrite !Z.eqb_refl. reflexivity.
Qed.

End FPTypeFacts.

(** ** [CmpErrorInfo] *)

(** C10: with the second argument omitted the flag is true and the
    tolerance is the one given. *)
Theorem CmpErrorInfo_default_flag (t : double) :
  MayBeWrong (CmpErrorInfoOps.make t None) = true /\
  MaxTolerance (CmpErrorInfoOps.make t None) = t.
Proof. split; reflexivity. Qed.

(** ** Induction over type descriptors and annotations *)

Lemma LLVMType_ind (P : LLVMType -> Prop) :
  (forall s cs, Forall P cs -> P (mkType s cs)) ->
  forall t, P t.
Proof.
  intros step. fix IH 1. intros [s cs]. apply step.
  induction cs as [|c cs IHcs]; constructor.
  - apply IH.
  - exact IHcs.
Qed.

Lemma MDInfo_ind (P : MDInfo -> Prop) :
  (forall t r e, P (InputInfo t r e)) ->
  (forall fs, Forall (fun f => match f with Some i => P i | None => True end) fs ->
              P (StructInfo fs)) ->
  forall i, P i.
Proof.
  intros leaf node. fix IH 1. intros [t r e|fs].
  - apply leaf.
  - apply node. induction fs as [|[i|] fs IHfs]; constructor; auto.
Qed.

(** ** Shape derivation *)

Section ShapeFacts.
Import TypeOps StructInfoOps.

Example construct_scalar : constructFromLLVMType scalar_ty = None.
Proof. reflexivity. Qed.

Example construct_pair :
  constructFromLLVMType pair_ty = Some (StructInfo [None; None]).
Proof. reflexivity. Qed.

Example construct_array_of_pairs :
  constructFromLLVMType array_of_pairs_ty = constructFromLLVMType pair_ty.
Proof. reflexivity. Qed.

Example construct_nested :
  constructFromLLVMType nested_ty
  = Some (StructInfo [None; Some (StructInfo [None; None])]).
Proof. reflexivity. Qed.

(** The result is never a scalar annotation. *)
Lemma constructFromLLVMType_is_struct t i :
  constructFromLLVMType t = Some i -> StructInfoOps.classof i = true.
Proof.
  revert i. induction t as [s cs IH] using LLVMType_ind. intros i.
  destruct cs as [|c0 cs]; [discriminate|].
  cbn. destruct s.
  - intros [= <-]. reflexivity.
  - apply (Forall_inv IH).
Qed.


(** On a finite tree: a descriptor without contained elements gives
    absent; a struct-like descriptor with N >= 1 elements gives an
    aggregate of exactly N slots, slot i being the derivation of
    element i; a non-struct descriptor with at least one element gives
    the derivation of element 0 itself. *)
Lemma constructFromLLVMType_cases (t : LLVMType) :
  match contained t with
  | [] => constructFromLLVMType t = None
  | c0 :: _ =>
      if isStructTy t then
        exists fs,
          constructFromLLVMType t = Some (StructInfo fs) /\
          length fs = getNumContainedTypes t /\
          forall i, fs !! i = constructFromLLVMType <$> contained t !! i
      else constructFromLLVMType t = constructFromLLVMType c0
  end.
Proof.
  destruct t as [s [|c0 cs]]; [reflexivity|].
  cbn [contained isStructTy]. destruct s; [|reflexivity].
  exists (map constructFromLLVMType (c0 :: cs)). split; [reflexivity|]. split.
  - unfold getNumContainedTypes. cbn [contained]. apply length_map.
  - intros i. apply (list_lookup_fmap constructFromLLVMType (c0 :: cs) i).
Qed.

End ShapeFacts.

(** ** Index resolution *)

Section ResolveFacts.
Import TypeOps StructInfoOps.

(** Once the current node is absent the loop is left at once: the
    result is absent whatever the type and the remaining indices. *)
Lemma resolve_loop_absent ty rest : resolve_loop ty None rest = Returns None.
Proof. destruct rest; reflexivity. Qed.

Lemma resolve_loop_nonstruct t info indices :
  traverses_nonstruct t indices = true ->
  resolve_loop t info indices = Returns info.
Proof.
  revert t. induction indices as [|idx rest IH]; intros t H.
  - reflexivity.
  - cbn in H. apply andb_true_iff in H as [Hs Hc].
    apply negb_true_iff in Hs.
    destruct info as [i|]; [|reflexivity].
    cbn. rewrite Hs. unfold getContainedType.
    destruct (contained t !! idx) as [c|]; [|discriminate].
    cbn. apply IH, Hc.
Qed.

(** Along an index path each of whose indices selects a contained
    type of a non-struct type, [resolveFromIndexList] returns the
    annotation node it started from. *)
Lemma resolveFromIndexList_nonstruct Fields t indices :
  traverses_nonstruct t indices = true ->
  resolveFromIndexList Fields t indices = Returns (Some (StructInfo Fields)).
Proof. apply resolve_loop_nonstruct. Qed.

Example resolve_through_wrappers :
  resolveFromIndexList [None; Some (InputInfo None None None)]
                       (mkType false [mkType false [scalar_ty; scalar_ty; scalar_ty]])
                       [0; 2]%nat
  = Returns (Some (StructInfo [None; Some (InputInfo None None None)])).
Proof. reflexivity. Qed.

(** C3: the node is meant to come back unchanged whatever the indices
    through non-struct types are.  The non-struct branch passes the
    index itself to [getContainedType]; an array-like type has one
    contained type, so any index other than 0 stops at the range
    assertion, where index 0 returns the node.  (Shape derivation
    takes contained type 0 in the same situation.) *)
Theorem resolveFromIndexList_array_index Fields c :
  resolveFromIndexList Fields (mkType false [c]) [5%nat] = AssertFails /\
  resolveFromIndexList Fields (mkType false [c]) [0%nat]
  = Returns (Some (StructInfo Fields)).
Proof. split; reflexivity. Qed.

(** The node that the loop computes on a struct type nested two levels
    deep, with an annotation whose slot 1 is an aggregate with a
    slot 0: for the path [1, 0] it is the node reached by taking slot 1
    and then slot 0 by hand; and once the current node is absent the
    result is absent, also when slot 1 itself is absent.  Who owns the
    receiver plays no part here; see [resolveFromIndexList_rc]. *)
Lemma resolveFromIndexList_two_levels t t1 t10 Fields inner r :
  isStructTy t = true ->
  getContainedType t 1 = Returns t1 ->
  isStructTy t1 = true ->
  getContainedType t1 0 = Returns t10 ->
  getField Fields 1 = Returns (Some (StructInfo inner)) ->
  getField inner 0 = Returns r ->
  resolveFromIndexList Fields t [1; 0]%nat = Returns r /\
  (forall ty rest, resolve_loop ty None rest = Returns None) /\
  (forall rest,
      resolveFromIndexList (<[1%nat := None]> Fields) t (1%nat :: rest)
      = Returns None).
Proof.
  intros Hs Ht1 Hs1 Ht10 Hf1 Hf0. split; [|split].
  - unfold resolveFromIndexList. cbn. rewrite Hs, Ht1. cbn.
    rewrite Hf1. cbn. rewrite Hs1, Ht10. cbn. rewrite Hf0. reflexivity.
  - apply resolve_loop_absent.
  - intros rest. unfold resolveFromIndexList. cbn. rewrite Hs, Ht1. cbn.
    unfold getField in *.
    destruct (Fields !! 1%nat) as [f|] eqn:E; [|discriminate].
    rewrite list_lookup_insert_eq by (eapply lookup_lt_Some; exact E).
    cbn. apply resolve_loop_absent.
Qed.

Lemma resolveFromIndexList_two_levels_witness :
  let leaf := Some (InputInfo None None None) in
  let Fields := [None; Some (StructInfo [leaf; None])] in
  isStructTy nested_ty = true /\
  getContainedType nested_ty 1 = Returns pair_ty /\
  isStructTy pair_ty = true /\
  getContainedType pair_ty 0 = Returns scalar_ty /\
  getField Fields 1 = Returns (Some (StructInfo [leaf; None])) /\
  getField [leaf; None] 0 = Returns leaf /\
  resolveFromIndexList Fields nested_ty [1; 0]%nat = Returns leaf /\
  (forall ty rest, resolve_loop ty None rest = Returns None) /\
  (forall rest,
      resolveFromIndexList (<[1%nat := None]> Fields) nested_ty (1%nat :: rest)
      = Returns None).
Proof.
  intros leaf Fields.
  repeat (split; [reflexivity|]).
  apply (resolveFromIndexList_two_levels
           nested_ty pair_ty scalar_ty Fields [leaf; None] leaf);
    reflexivity.
Defined.

End ResolveFacts.

(** ** Rendering *)

Lemma append_assoc (a b c : string) : (a +:+ b) +:+ c = a +:+ (b +:+ c).
Proof.
  induction a as [|x a IH]; [reflexivity|].
  change (String x ((a +:+ b) +:+ c) = String x (a +:+ (b +:+ c))).
  f_equal. exact IH.
Qed.

Lemma append_empty_r (a : string) : a +:+ "" = a.
Proof.
  induction a as [|x a IH]; [reflexivity|].
  change (String x (a +:+ "") = String x a). f_equal. exact IH.
Qed.

Section PrintingFacts.
Variable show_double : double -> string.

Lemma toString_struct_loop fs :
  MDInfo_toString show_double (StructInfo fs)
  = toString_loop show_double fs true "struct(" +:+ ")".
Proof. reflexivity. Qed.

(** After the first slot every slot is preceded by the separator. *)
Lemma toString_loop_rest fs sstm :
  toString_loop show_double fs false sstm
  = sstm +:+ fold_right
               (fun f acc => ", " +:+ slot_rendering show_double f +:+ acc) "" fs.
Proof.
  revert sstm. induction fs as [|f fs IH]; intros sstm.
  - cbn. now rewrite append_empty_r.
  - cbn [toString_loop fold_right negb]. cbv zeta.
    replace (match f with
             | Some x => (sstm +:+ ", ") +:+ MDInfo_toString show_double x
             | None => (sstm +:+ ", ") +:+ "void()"
             end) with ((sstm +:+ ", ") +:+ slot_rendering show_double f)
      by (destruct f; reflexivity).
    rewrite IH. now rewrite !append_assoc.
Qed.

Lemma concat_cons_fold (x : string) (xs : list string) :
  String.concat ", " (x :: xs)
  = x +:+ fold_right (fun s acc => ", " +:+ s +:+ acc) "" xs.
Proof.
  revert x. induction xs as [|y ys IH]; intros x.
  - cbn. now rewrite append_empty_r.
  - change (String.concat ", " (x :: y :: ys))
      with (x +:+ ", " +:+ String.concat ", " (y :: ys)).
    rewrite IH. reflexivity.
Qed.

Lemma fold_right_slots fs :
  fold_right (fun f acc => ", " +:+ slot_rendering show_double f +:+ acc) "" fs
  = fold_right (fun s acc => ", " +:+ s +:+ acc) ""
               (map (slot_rendering show_double) fs).
Proof. induction fs as [|f fs IH]; cbn; [reflexivity|]. now rewrite IH. Qed.

(** C8: a scalar prints as [scalar(...)] with exactly its present
    fields, in the order type, range, error, separated by single
    spaces; an aggregate prints as [struct(...)] with its slots
    separated by a comma and a space, an absent slot as [void()]. *)
Theorem toString_renderings :
  (forall IType IRange IError,
      MDInfo_toString show_double (InputInfo IType IRange IError)
      = scalar_rendering show_double IType IRange IError) /\
  (forall Fields,
      MDInfo_toString show_double (StructInfo Fields)
      = struct_rendering show_double Fields).
Proof.
  split.
  - intros [t|] [r|] [e|]; cbn; unfold scalar_rendering; cbn;
      rewrite ?append_assoc; reflexivity.
  - intros fs. rewrite toString_struct_loop. unfold struct_rendering.
    destruct fs as [|f fs]; [reflexivity|].
    cbn [toString_loop negb map]. cbv zeta.
    replace (match f with
             | Some x => "struct(" +:+ MDInfo_toString show_double x
             | None => "struct(" +:+ "void()"
             end) with ("struct(" +:+ slot_rendering show_double f)
      by (destruct f; reflexivity).
    rewrite toString_loop_rest, concat_cons_fold, fold_right_slots.
    now rewrite !append_assoc.
Qed.

End PrintingFacts.

Example toString_sample_struct :
  MDInfo_toString (fun _ => "x") sample_struct
  = "struct(scalar(type(s16_16fixp) range(x, x)), void())".
Proof. reflexivity. Qed.

Example toString_only_error :
  MDInfo_toString (fun _ => "x") (InputInfo None None (Some 0%float))
  = "scalar(error(x))".
Proof. reflexivity. Qed.

(** ** Cloning *)

Section StoreFacts.

Lemma bind_Some {A B} (m : Heap A) (k : A -> Heap B) h a h' :
  m h = Some (a, h') -> bind m k h = k a h'.
Proof. intros E. unfold bind. now rewrite E. Qed.

Lemma deref_Some p o (h : heap) : h !! p = Some o -> deref p h = Some (o, h).
Proof. intros E. unfold deref. now rewrite E. Qed.

Lemma new_fresh o (h : heap) :
  exists l, new o h = Some (l, <[l := o]> h) /\ h !! l = None.
Proof.
  exists (fresh (dom h)). split; [reflexivity|].
  apply not_elem_of_dom, is_fresh.
Qed.

Lemma difference_mono (a b c d : heap) : a ⊆ b -> c ⊆ d -> c ∖ b ⊆ d ∖ a.
Proof.
  intros Hab Hcd. apply map_subseteq_spec. intros l o Hl.
  apply lookup_difference_Some in Hl as [Hc Hb].
  apply lookup_difference_Some. split.
  - eapply lookup_weaken; eauto.
  - destruct (a !! l) as [o'|] eqn:E; [|reflexivity].
    eapply lookup_weaken in E; [|exact Hab]. congruence.
Qed.

Lemma TType_clone_same t : TType_clone t = t.
Proof. destruct t as [[[] w p]]. reflexivity. Qed.

(** *** Readers are monotone *)

Lemma load_TType_monotone : monotone load_TType.
Proof.
  intros h h' p a Hsub. unfold load_TType.
  destruct (h !! p) as [o|] eqn:E; [|discriminate].
  rewrite (lookup_weaken _ _ _ _ E Hsub). trivial.
Qed.

Lemma load_Range_monotone : monotone load_Range.
Proof.
  intros h h' p a Hsub. unfold load_Range.
  destruct (h !! p) as [o|] eqn:E; [|discriminate].
  rewrite (lookup_weaken _ _ _ _ E Hsub). trivial.
Qed.

Lemma load_double_monotone : monotone load_double.
Proof.
  intros h h' p a Hsub. unfold load_double.
  destruct (h !! p) as [o|] eqn:E; [|discriminate].
  rewrite (lookup_weaken _ _ _ _ E Hsub). trivial.
Qed.

Lemma load_ptr_monotone {A} (ld : heap -> loc -> option A) h h' p a :
  monotone ld -> h ⊆ h' ->
  load_ptr (ld h) p = Some a -> load_ptr (ld h') p = Some a.
Proof.
  intros Hm Hsub. destruct p as [l|]; cbn; [|trivial].
  destruct (ld h l) as [x|] eqn:E; [|discriminate].
  rewrite (Hm _ _ _ _ Hsub E). trivial.
Qed.

Lemma mapM_load_ptr_monotone {A} (ld : heap -> loc -> option A) h h' ps vs :
  monotone ld -> h ⊆ h' ->
  mapM (load_ptr (ld h)) ps = Some vs -> mapM (load_ptr (ld h')) ps = Some vs.
Proof.
  intros Hm Hsub H. apply mapM_Some in H. apply mapM_Some.
  induction H as [|p v ps vs Hp _ IH]; constructor; [|exact IH].
  eapply load_ptr_monotone; eauto.
Qed.

Lemma load_monotone fuel : monotone (load fuel).
Proof.
  induction fuel as [|fuel IH]; intros h h' p a Hsub; [discriminate|].
  cbn [load]. destruct (h !! p) as [o|] eqn:E; [|discriminate].
  rewrite (lookup_weaken _ _ _ _ E Hsub).
  destruct o as [| | |t r e|fs]; try discriminate.
  - destruct (load_ptr (load_TType h) t) as [vt|] eqn:Et; [|discriminate].
    destruct (load_ptr (load_Range h) r) as [vr|] eqn:Er; [|discriminate].
    destruct (load_ptr (load_double h) e) as [ve|] eqn:Ee; [|discriminate].
    rewrite (load_ptr_monotone _ _ _ _ _ load_TType_monotone Hsub Et).
    rewrite (load_ptr_monotone _ _ _ _ _ load_Range_monotone Hsub Er).
    rewrite (load_ptr_monotone _ _ _ _ _ load_double_monotone Hsub Ee).
    trivial.
  - destruct (mapM (load_ptr (load fuel h)) fs) as [vs|] eqn:Ef; [|discriminate].
    rewrite (mapM_load_ptr_monotone _ _ _ _ _ IH Hsub Ef). trivial.
Qed.

End StoreFacts.

Section CloneFacts.

(** *** The leaf copies *)

Lemma copies_leaf {A} (ld : heap -> loc -> option A) (cl : loc -> Heap loc)
      (inj : A -> object) :
  (forall h p a, ld h p = Some a -> h !! p = Some (inj a)) ->
  (forall h p a, h !! p = Some (inj a) -> ld h p = Some a) ->
  (forall h p a, h !! p = Some (inj a) -> cl p h = new (inj a) h) ->
  copies ld cl.
Proof.
  intros Hld Hinj Hcl h p a Ha.
  destruct (new_fresh (inj a) h) as (l & Hnew & Hl).
  exists l, (<[l := inj a]> h). split; [|split].
  - rewrite (Hcl _ _ _ (Hld _ _ _ Ha)). exact Hnew.
  - now apply insert_subseteq.
  - apply Hinj. apply lookup_difference_Some. split; [|exact Hl].
    apply lookup_insert_eq.
Qed.

Lemma copies_TType : copies load_TType clone_TType.
Proof.
  apply (copies_leaf _ _ ObjTType).
  - intros h p a. unfold load_TType.
    destruct (h !! p) as [[]|]; congruence.
  - intros h p a E. unfold load_TType. now rewrite E.
  - intros h p a E. unfold clone_TType.
    rewrite (bind_Some _ _ _ _ _ (deref_Some _ _ _ E)).
    now rewrite TType_clone_same.
Qed.

Lemma copies_Range : copies load_Range clone_Range.
Proof.
  apply (copies_leaf _ _ ObjRange).
  - intros h p a. unfold load_Range.
    destruct (h !! p) as [[]|]; congruence.
  - intros h p a E. unfold load_Range. now rewrite E.
  - intros h p a E. unfold clone_Range.
    rewrite (bind_Some _ _ _ _ _ (deref_Some _ _ _ E)).
    now destruct a.
Qed.

Lemma copies_double : copies load_double clone_double.
Proof.
  apply (copies_leaf _ _ ObjDouble).
  - intros h p a. unfold load_double.
    destruct (h !! p) as [[]|]; congruence.
  - intros h p a E. unfold load_double. now rewrite E.
  - intros h p a E. unfold clone_double.
    now rewrite (bind_Some _ _ _ _ _ (deref_Some _ _ _ E)).
Qed.

(** *** Nullable pointers and vectors of them *)

Lemma copies_ptr {A} (ld : heap -> loc -> option A) cl h p a :
  copies ld cl ->
  load_ptr (ld h) p = Some a ->
  exists p' h',
    clone_ptr cl p h = Some (p', h') /\ h ⊆ h' /\
    load_ptr (ld (h' ∖ h)) p' = Some a.
Proof.
  intros Hc. destruct p as [l|]; cbn.
  - destruct (ld h l) as [x|] eqn:E; [|discriminate]. intros [= <-].
    destruct (Hc _ _ _ E) as (l' & h' & Hcl & Hsub & Hl').
    exists (Some l'), h'. split; [|split].
    + now rewrite (bind_Some _ _ _ _ _ Hcl).
    + exact Hsub.
    + cbn. now rewrite Hl'.
  - intros [= <-]. exists None, h. split; [reflexivity|]. split; reflexivity.
Qed.

Lemma copies_fields {A} (ld : heap -> loc -> option A) cl ps :
  copies ld cl -> monotone ld ->
  forall h vs,
    mapM (load_ptr (ld h)) ps = Some vs ->
    exists ps' h',
      clone_fields cl ps h = Some (ps', h') /\ h ⊆ h' /\
      mapM (load_ptr (ld (h' ∖ h))) ps' = Some vs.
Proof.
  intros Hc Hm. induction ps as [|p ps IH]; intros h vs Hvs.
  - injection Hvs as <-. exists [], h. split; [reflexivity|].
    split; reflexivity.
  - apply mapM_Some in Hvs. inversion Hvs as [|? v ? vs' Hp Hps]; subst.
    apply mapM_Some in Hps.
    destruct (copies_ptr _ _ _ _ _ Hc Hp) as (p' & h1 & Hcl & Hsub1 & Hp').
    destruct (IH h1 vs') as (ps' & h2 & Hcls & Hsub2 & Hps').
    { eapply mapM_load_ptr_monotone; eauto. }
    exists (p' :: ps'), h2. split; [|split].
    + cbn [clone_fields]. rewrite (bind_Some _ _ _ _ _ Hcl).
      now rewrite (bind_Some _ _ _ _ _ Hcls).
    + etrans; eauto.
    + apply mapM_Some. constructor.
      * eapply load_ptr_monotone; [exact Hm| |exact Hp'].
        apply difference_mono; [reflexivity|exact Hsub2].
      * apply mapM_Some.
        eapply mapM_load_ptr_monotone; [exact Hm| |exact Hps'].
        apply difference_mono; [exact Hsub1|reflexivity].
Qed.

(** *** [MDInfo::clone] *)

Lemma copies_MDInfo fuel : copies (load fuel) (MDInfo_clone fuel).
Proof.
  induction fuel as [|fuel IH]; intros h p v Hv; [discriminate|].
  cbn [load] in Hv. destruct (h !! p) as [o|] eqn:E; [|discriminate].
  cbn [MDInfo_clone]. rewrite (bind_Some _ _ _ _ _ (deref_Some _ _ _ E)).
  destruct o as [| | |t r e|fs]; try discriminate.
  - destruct (load_ptr (load_TType h) t) as [vt|] eqn:Et; [|discriminate].
    destruct (load_ptr (load_Range h) r) as [vr|] eqn:Er; [|discriminate].
    destruct (load_ptr (load_double h) e) as [ve|] eqn:Ee; [|discriminate].
    injection Hv as <-.
    destruct (copies_ptr _ _ _ _ _ copies_TType Et)
      as (t' & h1 & Ht & S1 & Lt).
    pose proof (load_ptr_monotone _ _ _ _ _ load_Range_monotone S1 Er) as Er1.
    destruct (copies_ptr _ _ _ _ _ copies_Range Er1)
      as (r' & h2 & Hr & S2 & Lr).
    pose proof (load_ptr_monotone _ _ _ _ _ load_double_monotone
                  (transitivity S1 S2) Ee) as Ee2.
    destruct (copies_ptr _ _ _ _ _ copies_double Ee2)
      as (e' & h3 & He & S3 & Le).
    destruct (new_fresh (ObjInputInfo t' r' e') h3) as (l & Hnew & Hl).
    assert (S4 : h3 ⊆ <[l := ObjInputInfo t' r' e']> h3)
      by now apply insert_subseteq.
    exists l, (<[l := ObjInputInfo t' r' e']> h3). split; [|split].
    + rewrite (bind_Some _ _ _ _ _ Ht), (bind_Some _ _ _ _ _ Hr),
        (bind_Some _ _ _ _ _ He). exact Hnew.
    + repeat (etrans; [eassumption|]). reflexivity.
    + cbn [load].
      assert (Hh : h !! l = None).
      { destruct (h !! l) as [o|] eqn:El; [|reflexivity].
        eapply lookup_weaken in El;
          [|exact (transitivity S1 (transitivity S2 S3))]. congruence. }
      rewrite (proj2 (lookup_difference_Some _ _ _ _)
                     (conj (lookup_insert_eq _ _ _) Hh)).
      set (h4 := <[l := ObjInputInfo t' r' e']> h3) in *.
      assert (Lt4 : load_ptr (load_TType (h4 ∖ h)) t' = Some vt).
      { eapply load_ptr_monotone; [exact load_TType_monotone| |exact Lt].
        apply difference_mono; [reflexivity|].
        exact (transitivity S2 (transitivity S3 S4)). }
      assert (Lr4 : load_ptr (load_Range (h4 ∖ h)) r' = Some vr).
      { eapply load_ptr_monotone; [exact load_Range_monotone| |exact Lr].
        apply difference_mono; [exact S1|exact (transitivity S3 S4)]. }
      assert (Le4 : load_ptr (load_double (h4 ∖ h)) e' = Some ve).
      { eapply load_ptr_monotone; [exact load_double_monotone| |exact Le].
        apply difference_mono; [exact (transitivity S1 S2)|exact S4]. }
      rewrite Lt4, Lr4, Le4. reflexivity.
  - destruct (mapM (load_ptr (load fuel h)) fs) as [vs|] eqn:Ef; [|discriminate].
    injection Hv as <-.
    destruct (copies_fields _ _ fs IH (load_monotone fuel) h vs Ef)
      as (fs' & h1 & Hfs & S1 & Lfs).
    destruct (new_fresh (ObjStructInfo fs') h1) as (l & Hnew & Hl).
    assert (S2 : h1 ⊆ <[l := ObjStructInfo fs']> h1)
      by now apply insert_subseteq.
    exists l, (<[l := ObjStructInfo fs']> h1). split; [|split].
    + rewrite (bind_Some _ _ _ _ _ Hfs). exact Hnew.
    + etrans; eauto.
    + cbn [load].
      assert (Hh : h !! l = None).
      { destruct (h !! l) as [o|] eqn:El; [|reflexivity].
        eapply lookup_weaken in El; [|exact S1]. congruence. }
      rewrite (proj2 (lookup_difference_Some _ _ _ _)
                     (conj (lookup_insert_eq _ _ _) Hh)).
      set (h2 := <[l := ObjStructInfo fs']> h1) in *.
      assert (Lfs2 : mapM (load_ptr (load fuel (h2 ∖ h))) fs' = Some vs).
      { eapply mapM_load_ptr_monotone; [exact (load_monotone fuel)| |exact Lfs].
        apply difference_mono; [reflexivity|exact S2]. }
      rewrite Lfs2. reflexivity.
Qed.

End CloneFacts.

Section CloneIndependence.

Lemma load_is_allocated fuel (h : heap) p v :
  load fuel h p = Some v -> is_Some (h !! p).
Proof.
  destruct fuel as [|fuel]; [discriminate|]. cbn [load].
  destruct (h !! p) as [o|]; [eauto|discriminate].
Qed.

(** C7: [clone] returns a new object that represents the same
    annotation as the original (present fields and slots copied,
    absent ones absent), built only from objects allocated by the
    call; the objects of the original are left as they were, and no
    later assignment to the clone's fields, nor any other change
    confined to what the call allocated, changes what the original
    represents. *)
Theorem clone_independent fuel (h : heap) p v :
  load fuel h p = Some v ->
  exists p' h',
    MDInfo_clone fuel p h = Some (p', h') /\
    load fuel h' p' = Some v /\
    load fuel (h' ∖ h) p' = Some v /\
    h ⊆ h' /\
    (forall IType IRange IError,
        load fuel (assign_fields p' IType IRange IError h') p = Some v) /\
    (forall h'' : heap,
        (forall l, l ∈ dom h -> h'' !! l = h' !! l) ->
        load fuel h'' p = Some v).
Proof.
  intros Hv.
  destruct (copies_MDInfo fuel h p v Hv) as (p' & h' & Hcl & Hsub & Hnew).
  assert (Hframe : forall h'' : heap,
             (forall l, l ∈ dom h -> h'' !! l = h' !! l) ->
             load fuel h'' p = Some v).
  { intros h'' Hagree. apply (load_monotone fuel h h''); [|exact Hv].
    apply map_subseteq_spec. intros l o Hl.
    rewrite Hagree by (apply elem_of_dom; eauto).
    eapply lookup_weaken; eauto. }
  exists p', h'. split; [exact Hcl|]. split; [|split; [exact Hnew|]].
  - apply (load_monotone fuel (h' ∖ h) h'); [|exact Hnew].
    now apply map_subseteq_difference_l.
  - split; [exact Hsub|]. split; [|exact Hframe].
    intros IType IRange IError. apply Hframe. intros l Hl.
    unfold assign_fields. apply lookup_insert_ne. intros ->.
    destruct (load_is_allocated _ _ _ _ Hnew) as [o Ho].
    apply lookup_difference_Some in Ho as [_ Ho].
    apply not_elem_of_dom in Ho. contradiction.
Qed.

Lemma clone_independent_witness :
  load 2 sample_heap 4%positive = Some sample_struct /\
  exists p' h',
    MDInfo_clone 2 4%positive sample_heap = Some (p', h') /\
    load 2 h' p' = Some sample_struct /\
    load 2 (h' ∖ sample_heap) p' = Some sample_struct /\
    sample_heap ⊆ h' /\
    (forall IType IRange IError,
        load 2 (assign_fields p' IType IRange IError h') 4%positive
        = Some sample_struct) /\
    (forall h'' : heap,
        (forall l, l ∈ dom sample_heap -> h'' !! l = h' !! l) ->
        load 2 h'' 4%positive = Some sample_struct).
Proof.
  split.
  - vm_compute. reflexivity.
  - apply (clone_independent 2 sample_heap 4%positive sample_struct).
    vm_compute. reflexivity.
Defined.

(** The clone of the sample aggregate: four new objects, none shared
    with the original. *)
Example clone_sample :
  MDInfo_clone 2 4%positive sample_heap
  = Some (8%positive,
          <[8%positive := ObjStructInfo [Some 7%positive; None]]>
            (<[7%positive := ObjInputInfo (Some 5%positive) (Some 6%positive) None]>
               (<[6%positive := ObjRange sample_range]>
                  (<[5%positive := ObjTType sample_type]> sample_heap)))).
Proof. vm_compute. reflexivity. Qed.

End CloneIndependence.

(** ** The codec *)

Section CodecFacts.
Import Codec.

Lemma FPType_roundtrip (t : FPType) :
  FPType_createFromMetadata (FPType_toMetadata t) = Some t.
Proof. destruct t as [[] w p]. reflexivity. Qed.

Lemma TType_roundtrip (t : TType) :
  TType_createFromMetadata (TType_toMetadata t) = Some t.
Proof. destruct t as [[[] w p]]. reflexivity. Qed.

Lemma Range_roundtrip (r : Range) :
  Range_createFromMetadata (Range_toMetadata r) = Some r.
Proof. destruct r as [mn mx]. reflexivity. Qed.

Lemma InitialError_roundtrip (e : double) :
  CreateInitialErrorFromMetadata (InitialErrorToMetadata e) = Some e.
Proof. reflexivity. Qed.

Lemma CmpErrorInfo_roundtrip (c : CmpErrorInfo) :
  CmpErrorInfo_createFromMetadata (CmpErrorInfo_toMetadata c) = Some c.
Proof. destruct c as [t w]. reflexivity. Qed.

(** An optional child round-trips when the child does and the child's
    node is never the empty node. *)
Lemma field_roundtrip {A} (enc : A -> Metadata) (dec : Metadata -> option A)
      (f : option A) :
  (forall a, dec (enc a) = Some a) ->
  (forall a, IsNullInputInfoField (enc a) = false) ->
  field_createFromMetadata dec (field_toMetadata enc f) = Some f.
Proof.
  intros Hdec Hnull. destruct f as [a|]; [|reflexivity].
  unfold field_createFromMetadata. cbn [field_toMetadata].
  now rewrite Hnull, Hdec.
Qed.

Lemma MDInfo_toMetadata_not_null (i : MDInfo) :
  IsNullInputInfoField (MDInfo_toMetadata i) = false.
Proof. destruct i; reflexivity. Qed.

Lemma createFromMetadata_struct ops :
  MDInfo_createFromMetadata (MDNode (MDString STRUCT_FLAG :: ops))
  = StructInfo <$> createFromMetadata_slots ops.
Proof. reflexivity. Qed.

Lemma MDInfo_roundtrip (i : MDInfo) :
  MDInfo_createFromMetadata (MDInfo_toMetadata i) = Some i.
Proof.
  induction i as [t r e|fs IH] using MDInfo_ind.
  - change (MDInfo_createFromMetadata (MDInfo_toMetadata (InputInfo t r e)))
      with (IType ← field_createFromMetadata TType_createFromMetadata
                    (field_toMetadata TType_toMetadata t);
            IRange ← field_createFromMetadata Range_createFromMetadata
                     (field_toMetadata Range_toMetadata r);
            IError ← field_createFromMetadata CreateInitialErrorFromMetadata
                     (field_toMetadata InitialErrorToMetadata e);
            Some (InputInfo IType IRange IError)).
    rewrite (field_roundtrip _ _ t TType_roundtrip)
      by (intros [[[] w p]]; reflexivity).
    rewrite (field_roundtrip _ _ r Range_roundtrip) by reflexivity.
    rewrite (field_roundtrip _ _ e InitialError_roundtrip) by reflexivity.
    reflexivity.
  - cbn [MDInfo_toMetadata]. rewrite createFromMetadata_struct.
    assert (Hs : createFromMetadata_slots
                   (map (field_toMetadata MDInfo_toMetadata) fs) = Some fs).
    { induction IH as [|f fs Hf _ IHfs]; [reflexivity|].
      cbn [map createFromMetadata_slots]. rewrite IHfs.
      destruct f as [i|]; [|reflexivity].
      cbn [field_toMetadata]. rewrite MDInfo_toMetadata_not_null, Hf.
      reflexivity. }
    now rewrite Hs.
Qed.

(** Absence fidelity: a scalar without any field decodes to a scalar
    without any field. *)
Example empty_scalar_roundtrip :
  MDInfo_createFromMetadata (MDInfo_toMetadata InputInfoOps.make_empty)
  = Some (InputInfo None None None).
Proof. reflexivity. Qed.

(** C1: decoding the node that encoding produces gives back the
    encoded value, for numeric types, ranges, scalar and aggregate
    annotations (whatever fields or slots are absent) and comparison
    errors. *)
Theorem codec_roundtrip :
  (forall t : FPType, FPType_createFromMetadata (FPType_toMetadata t) = Some t) /\
  (forall t : TType, TType_createFromMetadata (TType_toMetadata t) = Some t) /\
  (forall r : Range, Range_createFromMetadata (Range_toMetadata r) = Some r) /\
  (forall IType IRange IError,
      MDInfo_createFromMetadata (MDInfo_toMetadata (InputInfo IType IRange IError))
      = Some (InputInfo IType IRange IError)) /\
  (forall Fields,
      MDInfo_createFromMetadata (MDInfo_toMetadata (StructInfo Fields))
      = Some (StructInfo Fields)) /\
  (forall c : CmpErrorInfo,
      CmpErrorInfo_createFromMetadata (CmpErrorInfo_toMetadata c) = Some c).
Proof.
  split; [exact FPType_roundtrip|].
  split; [exact TType_roundtrip|].
  split; [exact Range_roundtrip|].
  split; [intros; apply MDInfo_roundtrip|].
  split; [intros; apply MDInfo_roundtrip|].
  exact CmpErrorInfo_roundtrip.
Qed.

End CodecFacts.


(** * Further properties of the code *)

(** ** [FPType]: constructors, accessors, equality *)

Section FPTypeMore.
Import FPTypeOps.

(** X1: rebuilding a type from its accessors with the three-argument
    constructor gives the type back, for every stored width strictly
    between -2^31 and 2^31. *)
Theorem make_unsigned_of_accessors (t : FPType) :
  - int_half < Width t < int_half ->
  make_unsigned (getWidth t) (getPointPos t) (isSigned t) = t.
Proof.
  intros HW.
  assert (Hg : getWidth t = Z.abs (Width t)) by now apply getWidth_abs.
  assert (HW' : Width (make_unsigned (getWidth t) (getPointPos t) (isSigned t))
                = if isSigned t then - getWidth t else getWidth t).
  { apply make_unsigned_Width. rewrite Hg. lia. }
  destruct t as [[] W P]. cbn [Width] in *.
  unfold make_unsigned in *. cbn [Width] in HW'. unfold getPointPos. cbn [PointPos].
  f_equal. rewrite HW', Hg. unfold isSigned. cbn [Width].
  destruct (Z.ltb_spec W 0); lia.
Qed.

Lemma make_unsigned_of_accessors_witness :
  - int_half < Width (make (-32) 16) < int_half /\
  make_unsigned (getWidth (make (-32) 16)) (getPointPos (make (-32) 16))
                (isSigned (make (-32) 16))
  = make (-32) 16.
Proof.
  split.
  - unfold int_half. cbn. lia.
  - apply (make_unsigned_of_accessors (make (-32) 16)). unfold int_half. cbn. lia.
Defined.

(** X2: beyond the sign encoding, for an unsigned width strictly
    between 2^31 and 2^32, the signedness comes out inverted and the
    width reported is 2^32 minus the width given. *)
Theorem make_unsigned_wide w p :
  int_half < w < int_modulus ->
  (isSigned (make_unsigned w p true) = false /\
   getWidth (make_unsigned w p true) = int_modulus - w) /\
  (isSigned (make_unsigned w p false) = true /\
   getWidth (make_unsigned w p false) = int_modulus - w).
Proof.
  intros Hw. unfold int_half, int_modulus in Hw.
  assert (Ht : Width (make_unsigned w p true) = int_modulus - w).
  { unfold make_unsigned. cbn [Width].
    rewrite to_unsigned_opp by (unfold int_modulus; lia).
    apply to_int_small. unfold is_int, int_half, int_modulus. lia. }
  assert (Hf : Width (make_unsigned w p false) = w - int_modulus).
  { unfold make_unsigned. cbn [Width].
    apply to_int_high. unfold int_half, int_modulus. lia. }
  split; split.
  - unfold isSigned. rewrite Ht. apply Z.ltb_ge. unfold int_modulus. lia.
  - rewrite getWidth_abs; rewrite Ht; unfold int_half, int_modulus; lia.
  - unfold isSigned. rewrite Hf. apply Z.ltb_lt. unfold int_modulus. lia.
  - rewrite getWidth_abs; rewrite Hf; unfold int_half, int_modulus; lia.
Qed.

Lemma make_unsigned_wide_witness :
  int_half < 4294967264 < int_modulus /\
  (isSigned (make_unsigned 4294967264 16 true) = false /\
   getWidth (make_unsigned 4294967264 16 true) = int_modulus - 4294967264) /\
  (isSigned (make_unsigned 4294967264 16 false) = true /\
   getWidth (make_unsigned 4294967264 16 false) = int_modulus - 4294967264).
Proof.
  split.
  - unfold int_half, int_modulus. lia.
  - apply (make_unsigned_wide 4294967264 16). unfold int_half, int_modulus. lia.
Defined.

Lemma eq_op_true_iff (a b : FPType) :
  eq_op a (TType_FPType b) = Returns true <-> a = b.
Proof.
  destruct a as [[] w p], b as [[] w2 p2]. unfold eq_op. cbn. split.
  - intros H. injection H as H. apply andb_true_iff in H as [H1 H2].
    apply Z.eqb_eq in H1, H2. now subst.
  - intros [= -> ->]. now rewrite !Z.eqb_refl.
Qed.

(** X3: [operator==] between fixed-point types is an equivalence
    relation: reflexive, symmetric (the two orders of the operands give
    the same answer) and transitive. *)
Theorem eq_op_equivalence :
  (forall a, eq_op a (TType_FPType a) = Returns true) /\
  (forall a b, eq_op a (TType_FPType b) = eq_op b (TType_FPType a)) /\
  (forall a b c r,
      eq_op a (TType_FPType b) = Returns true ->
      eq_op b (TType_FPType c) = Returns r ->
      eq_op a (TType_FPType c) = Returns r).
Proof.
  split; [|split].
  - intros a. now apply eq_op_true_iff.
  - intros [[] w p] [[] w2 p2]. unfold eq_op. cbn.
    now rewrite (Z.eqb_sym w w2), (Z.eqb_sym p p2).
  - intros a b c r Hab Hbc. apply eq_op_true_iff in Hab. now subst.
Qed.

(** X4: the copy made by [clone] compares equal to the original with
    [operator==], from either side, and prints the same. *)
Theorem clone_eq_op (t : FPType) :
  eq_op (clone t) (TType_FPType t) = Returns true /\
  eq_op t (TType_clone (TType_FPType t)) = Returns true /\
  toString (clone t) = toString t.
Proof.
  assert (E : clone t = t) by (destruct t as [[] w p]; reflexivity).
  cbn [TType_clone]. rewrite E. split; [|split].
  - now apply eq_op_true_iff.
  - now apply eq_op_true_iff.
  - reflexivity.
Qed.

End FPTypeMore.

(** ** [StructInfo]: construction, shape derivation, resolution *)

Section StructInfoMore.
Import TypeOps StructInfoOps.

(** X5: a [StructInfo] built with a size has that many slots, every one
    of them absent, and [getField] beyond the size stops at the range
    assertion. *)
Theorem make_sized_fields (n : nat) :
  exists fs,
    make_sized n = StructInfo fs /\
    size fs = n /\
    forall I, getField fs I = if (I <? n)%nat then Returns None else AssertFails.
Proof.
  exists (replicate n None). split; [reflexivity|]. split.
  - apply length_replicate.
  - intros I. unfold getField. destruct (Nat.ltb_spec I n) as [H|H].
    + now rewrite lookup_replicate_2.
    + now rewrite (proj1 (lookup_replicate_None n None I) H).
Qed.

Lemma is_skeleton_slots fs :
  Forall (fun f => match f with Some i => is_skeleton i = true | None => True end) fs ->
  is_skeleton (StructInfo fs) = true.
Proof.
  intros H. cbn [is_skeleton]. apply forallb_forall. intros f Hf.
  rewrite Forall_forall in H. specialize (H f).
  destruct f as [i|]; [|reflexivity]. apply H. now apply list_elem_of_In.
Qed.

(** X6: whatever shape derivation returns is an aggregate without any
    scalar in it: all members that are not structs are absent. *)
Theorem constructFromLLVMType_skeleton t i :
  constructFromLLVMType t = Some i ->
  StructInfoOps.classof i = true /\ is_skeleton i = true.
Proof.
  revert i. induction t as [s cs IH] using LLVMType_ind. intros i.
  destruct cs as [|c0 cs]; [discriminate|].
  cbn [constructFromLLVMType]. destruct s.
  - intros [= <-]. split; [reflexivity|].
    apply is_skeleton_slots.
    change (Forall (fun f => match f with
                             | Some i => is_skeleton i = true
                             | None => True
                             end) (constructFromLLVMType <$> (c0 :: cs))).
    apply Forall_fmap.
    eapply Forall_impl; [exact IH|]. intros c Hc. cbn.
    destruct (constructFromLLVMType c) as [j|] eqn:E; [|exact I].
    now apply Hc.
  - apply (Forall_inv IH).
Qed.

Lemma constructFromLLVMType_skeleton_witness :
  constructFromLLVMType array_of_pairs_ty = Some (StructInfo [None; None]) /\
  StructInfoOps.classof (StructInfo [None; None]) = true /\
  is_skeleton (StructInfo [None; None]) = true.
Proof.
  split.
  - reflexivity.
  - apply (constructFromLLVMType_skeleton array_of_pairs_ty). reflexivity.
Defined.

(** X9: resolution only ever returns nodes of the annotation it starts
    from: the node itself or a node below one of its slots. *)
Theorem resolve_loop_subnode t i indices r :
  resolve_loop t (Some i) indices = Returns (Some r) ->
  subnode r i.
Proof.
  revert t i. induction indices as [|idx rest IH]; intros t i H.
  - injection H as <-. constructor.
  - cbn [resolve_loop] in H. destruct (isStructTy t).
    + unfold getContainedType in H.
      destruct (contained t !! idx) as [c|]; [|discriminate]. cbn in H.
      destruct i as [ty rg er|fs]; [discriminate|]. cbn in H.
      unfold getField in H. destruct (fs !! idx) as [f|] eqn:E; [|discriminate].
      cbn in H. destruct f as [j|].
      * apply (subnode_slot r fs j).
        -- apply list_elem_of_lookup. eauto.
        -- now apply (IH c).
      * rewrite resolve_loop_absent in H. discriminate.
    + unfold getContainedType in H.
      destruct (contained t !! idx) as [c|]; [|discriminate]. cbn in H.
      now apply (IH c).
Qed.

Lemma resolve_loop_subnode_witness :
  let leaf := InputInfo None None None in
  let root := StructInfo [None; Some (StructInfo [Some leaf; None])] in
  resolve_loop nested_ty (Some root) [1; 0]%nat = Returns (Some leaf) /\
  subnode leaf root.
Proof.
  intros leaf root. split.
  - reflexivity.
  - apply (resolve_loop_subnode nested_ty root [1; 0]%nat leaf). reflexivity.
Defined.

(** X10: what a prefix of a path decides stays decided.  If resolving a
    path gives absent, or stops at an assertion, then so does resolving
    any extension of the path. *)
Theorem resolve_loop_prefix t info p1 p2 :
  match resolve_loop t info p1 with
  | Returns None => resolve_loop t info (p1 ++ p2) = Returns None
  | AssertFails => resolve_loop t info (p1 ++ p2) = AssertFails
  | Returns (Some _) => True
  end.
Proof.
  revert t info. induction p1 as [|idx rest IH]; intros t info.
  - cbn. destruct info; [exact I|apply resolve_loop_absent].
  - cbn [resolve_loop app]. destruct info as [i|]; [|reflexivity].
    destruct (isStructTy t).
    + destruct (getContainedType t idx) as [c|]; cbn; [|reflexivity].
      destruct (cast i) as [fs|]; cbn; [|reflexivity].
      destruct (getField fs idx) as [f|]; cbn; [|reflexivity].
      apply IH.
    + destruct (getContainedType t idx) as [c|]; cbn; [|reflexivity].
      apply IH.
Qed.

End StructInfoMore.

(** ** The store: allocation *)

Section StoreMore.

(** *** How many objects [clone] allocates *)

Lemma new_size o (h : heap) l h' :
  new o h = Some (l, h') -> size h' = S (size h).
Proof.
  unfold new. intros [= <- <-]. apply map_size_insert_None.
  apply not_elem_of_dom, is_fresh.
Qed.

Lemma clone_TType_size p (h : heap) p' h' :
  clone_TType p h = Some (p', h') -> size h' = S (size h).
Proof.
  unfold clone_TType, bind, deref.
  destruct (h !! p) as [[]|]; try discriminate. apply new_size.
Qed.

Lemma clone_Range_size p (h : heap) p' h' :
  clone_Range p h = Some (p', h') -> size h' = S (size h).
Proof.
  unfold clone_Range, bind, deref.
  destruct (h !! p) as [[]|]; try discriminate. apply new_size.
Qed.

Lemma clone_double_size p (h : heap) p' h' :
  clone_double p h = Some (p', h') -> size h' = S (size h).
Proof.
  unfold clone_double, bind, deref.
  destruct (h !! p) as [[]|]; try discriminate. apply new_size.
Qed.

Lemma clone_ptr_size cl p (h : heap) p' h' :
  (forall l h0 l' h1, cl l h0 = Some (l', h1) -> size h1 = S (size h0)) ->
  clone_ptr cl p h = Some (p', h') ->
  size h' = (size h + present p)%nat.
Proof.
  intros Hcl. destruct p as [l|]; cbn.
  - unfold bind, ret. destruct (cl l h) as [[l' h1]|] eqn:E; [|discriminate].
    intros [= <- <-]. rewrite (Hcl _ _ _ _ E). lia.
  - unfold ret. intros [= <- <-]. lia.
Qed.

Lemma load_ptr_present {A} (f : loc -> option A) p v :
  load_ptr f p = Some v -> present v = present p.
Proof.
  destruct p as [l|]; cbn.
  - destruct (f l); [|discriminate]. now intros [= <-].
  - now intros [= <-].
Qed.

Lemma copies_subseteq {A} (ld : heap -> loc -> option A) cl h p a p' h' :
  copies ld cl -> ld h p = Some a -> cl p h = Some (p', h') -> h ⊆ h'.
Proof.
  intros Hc Ha Hcl. destruct (Hc _ _ _ Ha) as (p'' & h'' & Hcl' & Hsub & _).
  rewrite Hcl in Hcl'. injection Hcl' as <- <-. exact Hsub.
Qed.

Lemma clone_fields_size fuel :
  (forall (h : heap) p v p' h',
      load fuel h p = Some v -> MDInfo_clone fuel p h = Some (p', h') ->
      size h' = (size h + object_count v)%nat) ->
  forall ps (h : heap) vs ps' h',
    mapM (load_ptr (load fuel h)) ps = Some vs ->
    clone_fields (MDInfo_clone fuel) ps h = Some (ps', h') ->
    size h' = (size h + slots_count vs)%nat.
Proof.
  intros IH. induction ps as [|p ps IHps]; intros h vs ps' h' Hvs Hcl.
  - injection Hvs as <-. injection Hcl as <- <-. cbn. lia.
  - apply mapM_Some in Hvs. inversion Hvs as [|? v ? vs' Hp Hps]; subst.
    apply mapM_Some in Hps.
    cbn [clone_fields] in Hcl. unfold bind at 1 in Hcl.
    destruct (clone_ptr (MDInfo_clone fuel) p h) as [[p1 h1]|] eqn:E1;
      [|discriminate].
    unfold bind, ret in Hcl.
    destruct (clone_fields (MDInfo_clone fuel) ps h1) as [[ps1 h2]|] eqn:E2;
      [|discriminate].
    injection Hcl as <- <-.
    assert (S1 : h ⊆ h1 /\ size h1 = (size h + match v with
                                               | Some x => object_count x
                                               | None => O
                                               end)%nat).
    { destruct p as [l|]; cbn in Hp, E1.
      - destruct (load fuel h l) as [x|] eqn:El; [|discriminate].
        injection Hp as <-. unfold bind, ret in E1.
        destruct (MDInfo_clone fuel l h) as [[l' h1']|] eqn:Ec; [|discriminate].
        injection E1 as <- <-. split.
        + eapply copies_subseteq; [apply (copies_MDInfo fuel)|exact El|exact Ec].
        + eapply IH; eauto.
      - injection Hp as <-. unfold ret in E1. injection E1 as <- <-.
        split; [reflexivity|lia]. }
    destruct S1 as [S1 Z1].
    rewrite (IHps h1 vs' ps1 h2); [|eapply mapM_load_ptr_monotone;
                                     [apply load_monotone|exact S1|exact Hps]
                                   |exact E2].
    rewrite Z1. cbn [slots_count fold_right]. unfold slots_count. lia.
Qed.

Lemma MDInfo_clone_size fuel :
  forall (h : heap) p v p' h',
    load fuel h p = Some v -> MDInfo_clone fuel p h = Some (p', h') ->
    size h' = (size h + object_count v)%nat.
Proof.
  induction fuel as [|fuel IH]; intros h p v p' h' Hv Hcl; [discriminate|].
  cbn [load] in Hv. cbn [MDInfo_clone] in Hcl.
  destruct (h !! p) as [o|] eqn:E; [|discriminate].
  rewrite (bind_Some _ _ _ _ _ (deref_Some _ _ _ E)) in Hcl.
  destruct o as [| | |t r e|fs]; try discriminate.
  - destruct (load_ptr (load_TType h) t) as [vt|] eqn:Et; [|discriminate].
    destruct (load_ptr (load_Range h) r) as [vr|] eqn:Er; [|discriminate].
    destruct (load_ptr (load_double h) e) as [ve|] eqn:Ee; [|discriminate].
    injection Hv as <-.
    unfold bind at 1 in Hcl.
    destruct (clone_ptr clone_TType t h) as [[t' h1]|] eqn:C1; [|discriminate].
    unfold bind at 1 in Hcl.
    destruct (clone_ptr clone_Range r h1) as [[r' h2]|] eqn:C2; [|discriminate].
    unfold bind at 1 in Hcl.
    destruct (clone_ptr clone_double e h2) as [[e' h3]|] eqn:C3; [|discriminate].
    apply new_size in Hcl.
    apply (clone_ptr_size _ _ _ _ _ clone_TType_size) in C1.
    apply (clone_ptr_size _ _ _ _ _ clone_Range_size) in C2.
    apply (clone_ptr_size _ _ _ _ _ clone_double_size) in C3.
    cbn [object_count].
    rewrite (load_ptr_present _ _ _ Et), (load_ptr_present _ _ _ Er),
      (load_ptr_present _ _ _ Ee).
    lia.
  - destruct (mapM (load_ptr (load fuel h)) fs) as [vs|] eqn:Ef; [|discriminate].
    injection Hv as <-.
    unfold bind at 1 in Hcl.
    destruct (clone_fields (MDInfo_clone fuel) fs h) as [[fs' h1]|] eqn:C1;
      [|discriminate].
    apply new_size in Hcl.
    rewrite Hcl, (clone_fields_size fuel IH _ _ _ _ _ Ef C1).
    change (object_count (StructInfo vs)) with (S (slots_count vs)). lia.
Qed.

(** X12: [clone] allocates exactly one object for the node and one for
    every present field and slot below it, counted along the tree: what
    the original shares between two places the clone holds twice. *)
Theorem MDInfo_clone_allocates fuel (h : heap) p v :
  load fuel h p = Some v ->
  exists p' h',
    MDInfo_clone fuel p h = Some (p', h') /\
    size h' = (size h + object_count v)%nat /\
    size (h' ∖ h) = object_count v.
Proof.
  intros Hv.
  destruct (copies_MDInfo fuel h p v Hv) as (p' & h' & Hcl & Hsub & _).
  exists p', h'. split; [exact Hcl|].
  assert (Hs : size h' = (size h + object_count v)%nat)
    by (eapply MDInfo_clone_size; eauto).
  split; [exact Hs|].
  assert (Hd : size h' = (size h + size (h' ∖ h))%nat).
  { rewrite <- (map_difference_union h h' Hsub) at 1.
    apply map_size_disj_union. now apply map_disjoint_difference_r1. }
  lia.
Qed.

(** A store in which both slots of an aggregate point to the same
    scalar: three objects for the original's four places. *)
Lemma MDInfo_clone_allocates_witness :
  let h : heap :=
    <[3%positive := ObjStructInfo [Some 2%positive; Some 2%positive]]>
      (<[2%positive := ObjInputInfo (Some 1%positive) None None]>
         (<[1%positive := ObjTType sample_type]> ∅)) in
  let scalar := InputInfo (Some sample_type) None None in
  load 2 h 3%positive = Some (StructInfo [Some scalar; Some scalar]) /\
  exists p' h',
    MDInfo_clone 2 3%positive h = Some (p', h') /\
    size h' = (size h + object_count (StructInfo [Some scalar; Some scalar]))%nat /\
    size (h' ∖ h) = object_count (StructInfo [Some scalar; Some scalar]).
Proof.
  intros h scalar. split; [vm_compute; reflexivity|].
  apply (MDInfo_clone_allocates 2 h 3%positive
           (StructInfo [Some scalar; Some scalar])).
  vm_compute. reflexivity.
Defined.

End StoreMore.

(** ** [FPType::toString] tells types apart *)

Section ToStringInjective.
Import FPTypeOps.

Lemma append_cons c (s x : string) : String c s +:+ x = String c (s +:+ x).
Proof. reflexivity. Qed.

Lemma string_of_uint_digits d : digits_only (NilEmpty.string_of_uint d) = true.
Proof. induction d; cbn [NilEmpty.string_of_uint digits_only]; trivial. Qed.

Lemma show_unsigned_digits z : digits_only (show_unsigned z) = true.
Proof.
  unfold show_unsigned, NilZero.string_of_uint.
  destruct (N.to_uint (Z.to_N z)); try reflexivity;
    apply (string_of_uint_digits (_ u)).
Qed.

Lemma show_unsigned_inj a b :
  0 <= a -> 0 <= b -> show_unsigned a = show_unsigned b -> a = b.
Proof.
  intros Ha Hb H. unfold show_unsigned in H.
  assert (Hn : forall n, N.to_uint n <> Decimal.Nil).
  { intros [|q]; [discriminate|apply DecimalPos.Unsigned.to_uint_nonnil]. }
  apply (f_equal NilZero.uint_of_string) in H.
  rewrite !NilZero.usu in H by apply Hn.
  injection H as H. apply DecimalN.Unsigned.to_uint_inj in H. lia.
Qed.

(** Two strings that start with digits followed by a character that is
    no digit are equal only if the digits, the character and the rest
    are. *)
Lemma digits_split s1 : forall s2 c1 c2 r1 r2,
  digits_only s1 = true -> digits_only s2 = true ->
  is_digit c1 = false -> is_digit c2 = false ->
  s1 +:+ String c1 r1 = s2 +:+ String c2 r2 ->
  s1 = s2 /\ c1 = c2 /\ r1 = r2.
Proof.
  induction s1 as [|a s1 IH]; intros [|b s2] c1 c2 r1 r2 D1 D2 N1 N2 H.
  - injection H as -> ->. auto.
  - rewrite append_cons in H. injection H as -> _.
    cbn in D2. apply andb_true_iff in D2 as [D2 _]. congruence.
  - rewrite append_cons in H. injection H as -> _.
    cbn in D1. apply andb_true_iff in D1 as [D1 _]. congruence.
  - rewrite !append_cons in H. injection H as -> H.
    cbn in D1, D2. apply andb_true_iff in D1 as [_ D1].
    apply andb_true_iff in D2 as [_ D2].
    destruct (IH s2 c1 c2 r1 r2 D1 D2 N1 N2 H) as (-> & -> & ->). auto.
Qed.

(** X13: [toString] tells fixed-point types apart.  Two types with
    stored widths strictly between -2^31 and 2^31 and fractional bits
    in the [unsigned] range that print the same are the same type. *)
Theorem toString_injective (a b : FPType) :
  - int_half < Width a < int_half -> is_unsigned (PointPos a) ->
  - int_half < Width b < int_half -> is_unsigned (PointPos b) ->
  toString a = toString b ->
  a = b.
Proof.
  intros HWa HPa HWb HPb H.
  destruct a as [[] Wa Pa], b as [[] Wb Pb]. cbn [Width PointPos] in *.
  unfold toString in H. cbn [Width PointPos] in H.
  rewrite !std_abs_small in H by assumption.
  rewrite (to_unsigned_small (Z.abs Wa)) in H
    by (unfold is_unsigned, int_half, int_modulus in *; lia).
  rewrite (to_unsigned_small (Z.abs Wb)) in H
    by (unfold is_unsigned, int_half, int_modulus in *; lia).
  set (Da := to_unsigned (Z.abs Wa - Pa)) in *.
  set (Db := to_unsigned (Z.abs Wb - Pb)) in *.
  assert (Hsign : (Wa <? 0) = (Wb <? 0) /\
                  show_unsigned Da +:+ String "_" (show_unsigned Pa +:+ "fixp")
                  = show_unsigned Db +:+ String "_" (show_unsigned Pb +:+ "fixp")).
  { destruct (Wa <? 0), (Wb <? 0); rewrite !append_cons in H;
      injection H as H; try discriminate; split; auto. }
  destruct Hsign as [Hsign H1].
  apply digits_split in H1 as (HD & _ & H2);
    try apply show_unsigned_digits; try reflexivity.
  change "fixp"%string with (String "f" "ixp") in H2.
  apply digits_split in H2 as (HP & _ & _);
    try apply show_unsigned_digits; try reflexivity.
  unfold is_unsigned in *.
  apply show_unsigned_inj in HP; [|lia|lia]. subst Pb.
  apply show_unsigned_inj in HD;
    [|unfold Da, to_unsigned, int_modulus; apply Z.mod_pos_bound; lia
     |unfold Db, to_unsigned, int_modulus; apply Z.mod_pos_bound; lia].
  assert (Habs : Z.abs Wa = Z.abs Wb).
  { unfold Da, Db, to_unsigned, int_modulus, int_half in *. clear Da Db H.
    change (2 ^ 32) with 4294967296 in *. change (2 ^ 31) with 2147483648 in *.
    pose proof (Z.div_mod (Z.abs Wa - Pa) 4294967296 ltac:(lia)) as E1.
    pose proof (Z.div_mod (Z.abs Wb - Pa) 4294967296 ltac:(lia)) as E2.
    rewrite HD in E1. lia. }
  f_equal.
  destruct (Z.ltb_spec Wa 0), (Z.ltb_spec Wb 0); try discriminate; lia.
Qed.

Lemma toString_injective_witness :
  - int_half < Width (make (-32) 16) < int_half /\
  is_unsigned (PointPos (make (-32) 16)) /\
  - int_half < Width (make_unsigned 32 16 true) < int_half /\
  is_unsigned (PointPos (make_unsigned 32 16 true)) /\
  toString (make (-32) 16) = toString (make_unsigned 32 16 true) /\
  make (-32) 16 = make_unsigned 32 16 true.
Proof.
  assert (R : - int_half < -32 < int_half /\ is_unsigned 16)
    by (unfold is_unsigned, int_half, int_modulus; lia).
  destruct R as [R1 R2].
  split; [exact R1|]. split; [exact R2|]. split; [exact R1|].
  split; [exact R2|]. split; [reflexivity|].
  apply (toString_injective (make (-32) 16) (make_unsigned 32 16 true));
    try exact R1; try exact R2; reflexivity.
Defined.

(** The canonical form of a signed 32-bit type with 16 fractional
    bits. *)
Lemma toString_canonical_witness :
  - int_half < Width (make (-32) 16) < int_half /\
  0 <= PointPos (make (-32) 16) <= Z.abs (Width (make (-32) 16)) /\
  toString (make (-32) 16) = canonical_form (make (-32) 16).
Proof.
  assert (R : - int_half < -32 < int_half /\ 0 <= 16 <= Z.abs (-32))
    by (unfold int_half; lia).
  destruct R as [R1 R2].
  split; [exact R1|]. split; [exact R2|].
  apply (toString_canonical (make (-32) 16)); [exact R1|exact R2].
Defined.

End ToStringInjective.

(** ** Shape derivation over descriptors that may contain themselves *)

Section TableFacts.





(** A descriptor that unfolds to a finite tree gives what the
    derivation over finite trees gives for that tree. *)
Lemma constructFromLLVMType_in_unfold n (tbl : TypeTable) t T :
  unfold_type n tbl t = Some T ->
  constructFromLLVMType_in n tbl t
  = Some (StructInfoOps.constructFromLLVMType T).
Proof.
  revert t T. induction n as [|n IH]; intros t T H; [discriminate|].
  cbn [unfold_type] in H. cbn [constructFromLLVMType_in].
  destruct (tbl !! t) as [d|]; [|discriminate].
  destruct (mapM (unfold_type n tbl) (descContained d)) as [Ts|] eqn:HTs;
    [|discriminate].
  injection H as <-. apply mapM_Some in HTs.
  destruct HTs as [|c0 T0 cs Ts H0 Hrest]; [reflexivity|].
  cbn [StructInfoOps.constructFromLLVMType]. destruct (descIsStruct d).
  - assert (Hm : mapM (constructFromLLVMType_in n tbl) (c0 :: cs)
                 = Some (map StructInfoOps.constructFromLLVMType (T0 :: Ts))).
    { apply mapM_Some. constructor; [now apply IH|].
      clear H0. induction Hrest as [|c Tc cs' Ts' Hc _ IHr]; constructor.
      - now apply IH.
      - exact IHr. }
    rewrite Hm. reflexivity.
  - now apply IH.
Qed.

End TableFacts.

(** ** [operator==] against other variants *)

Section VariantFacts.
Context {OtherKind : Type} `{EqDecision OtherKind}.

(** C6: [operator==] never stops at the downcast; it returns true
    exactly when the other operand carries the same variant tag and the
    same pair of signed width and fractional bits; against an object of
    another variant it returns false whatever that object's members
    are.  In the hierarchy of the header it is the comparison modelled
    there. *)
Theorem eq_op_variants (W P : Z) (b : @Variants.TTypeObject OtherKind) :
  (exists r, Variants.eq_op W P b = Returns r) /\
  (Variants.eq_op W P b = Returns true <->
   Variants.getKind (Variants.of_FPType W P) = Variants.getKind b /\
   W = Variants.rawWidth b /\ P = Variants.rawPointPos b) /\
  (forall (k : OtherKind) w p,
      Variants.eq_op W P (Variants.mkObject (Variants.K_Other k) w p)
      = Returns false) /\
  (forall (this : FPType) (t : TType),
      Variants.eq_op (Width this) (PointPos this) (TType_object t)
      = FPTypeOps.eq_op this t).
Proof.
  split; [|split; [|split]].
  - destruct b as [[|k] w p]; unfold Variants.eq_op, Variants.base_eq_op,
      Variants.cast, Variants.classof; cbn.
    + rewrite !bool_decide_eq_true_2 by reflexivity. cbn. eauto.
    + rewrite bool_decide_eq_false_2 by discriminate. cbn. eauto.
  - destruct b as [[|k] w p]; unfold Variants.eq_op, Variants.base_eq_op,
      Variants.cast, Variants.classof; cbn.
    + rewrite !bool_decide_eq_true_2 by reflexivity. cbn. split.
      * intros [= H]. apply andb_true_iff in H as [H1 H2].
        apply Z.eqb_eq in H1, H2. auto.
      * intros (_ & -> & ->). now rewrite !Z.eqb_refl.
    + rewrite bool_decide_eq_false_2 by discriminate. cbn. split.
      * discriminate.
      * intros (Hk & _). discriminate.
  - intros k w p. unfold Variants.eq_op, Variants.base_eq_op. cbn.
    now rewrite bool_decide_eq_false_2 by discriminate.
  - intros [[] w p] [[[] w2 p2]]. reflexivity.
Qed.

End VariantFacts.

(** ** Index resolution and the ownership of the receiver *)

Section OwnershipFacts.
Import TypeOps.

Lemma rc_bind_Ok {A B} (m : Rc A) (k : A -> Rc B) st a st' :
  m st = Ok a st' -> rc_bind m k st = k a st'.
Proof. intros E. unfold rc_bind. now rewrite E. Qed.

(** C4: the path [1, 0] is meant to give the node found by taking
    slot 1 and then slot 0.  The shared pointer that the code makes from
    [this] is a second, separate owner of the receiver; the assignment
    of the first struct step releases it, and its control block deletes
    the receiver.  On a receiver that lives in the control block of
    [std::make_shared] and is still owned there, that is an invalid
    free, whatever the rest of the path. *)
Theorem resolveFromIndexList_rc_owned
        fuel (st : rc_store) this b Fields t idx rest c f :
  objs st !! this = Some (RcStructInfo Fields, FromMakeShared b) ->
  is_Some (blocks st !! b) ->
  isStructTy t = true ->
  contained t !! idx = Some c ->
  Fields !! idx = Some f ->
  match f with
  | Some s => is_Some (blocks st !! control s)
  | None => True
  end ->
  resolveFromIndexList_rc (S fuel) this t (idx :: rest) st
  = Undefined InvalidFree.
Proof.
  intros Hthis Hb Hs Hc Hf Hfb.
  set (b' := fresh (dom (blocks st))).
  assert (Hfresh : blocks st !! b' = None)
    by (apply not_elem_of_dom, is_fresh).
  assert (Hne : b <> b').
  { intros ->. destruct Hb as [x Hx]. congruence. }
  unfold resolveFromIndexList_rc.
  rewrite (rc_bind_Ok _ _ st (mkShared this b')
             (mkStore (objs st) (<[b' := (this, 1%nat)]> (blocks st))))
    by reflexivity.
  cbn [resolve_loop_rc]. rewrite Hs.
  unfold getContainedType. rewrite Hc.
  rewrite (rc_bind_Ok _ _ _ c _ eq_refl).
  unfold rc_deref at 1. unfold rc_bind at 1. cbn [objs pointee]. rewrite Hthis.
  rewrite (rc_bind_Ok _ _ _ Fields _ eq_refl).
  unfold rc_getField. rewrite Hf.
  rewrite (rc_bind_Ok _ _ _ f _ eq_refl).
  assert (Hcopy : exists st1,
             copy_shared f (mkStore (objs st) (<[b' := (this, 1%nat)]> (blocks st)))
             = Ok f st1 /\
             objs st1 = objs st /\ blocks st1 !! b' = Some (this, 1%nat)).
  { destruct f as [s|].
    - destruct Hfb as [[tg n] Hs']. cbn [copy_shared blocks objs].
      assert (Hsb : control s <> b') by (intros E; rewrite E in Hs'; congruence).
      rewrite lookup_insert_ne by congruence. rewrite Hs'.
      eexists. split; [reflexivity|]. split; [reflexivity|].
      cbn [blocks]. rewrite lookup_insert_ne by exact Hsb.
      apply lookup_insert_eq.
    - eexists. split; [reflexivity|]. split; [reflexivity|].
      cbn [blocks]. apply lookup_insert_eq. }
  destruct Hcopy as (st1 & Hcp & Ho1 & Hb1).
  rewrite (rc_bind_Ok _ _ _ _ _ Hcp).
  unfold rc_bind at 1. cbn [release control]. rewrite Hb1. cbn [Nat.ltb Nat.leb].
  rewrite Ho1, Hthis. cbn [may_delete].
  now rewrite bool_decide_eq_false_2 by exact Hne.
Qed.

Lemma resolveFromIndexList_rc_owned_witness :
  objs owned_store !! 3%positive
  = Some (RcStructInfo [None; Some (mkShared 2%positive 2%positive)],
          FromMakeShared 3%positive) /\
  is_Some (blocks owned_store !! 3%positive) /\
  isStructTy nested_ty = true /\
  contained nested_ty !! 1%nat = Some pair_ty /\
  [None; Some (mkShared 2%positive 2%positive)] !! 1%nat
  = Some (Some (mkShared 2%positive 2%positive)) /\
  is_Some (blocks owned_store !! 2%positive) /\
  resolveFromIndexList_rc 3 3%positive nested_ty [1; 0]%nat owned_store
  = Undefined InvalidFree.
Proof.
  assert (H3 : is_Some (blocks owned_store !! 3%positive))
    by (vm_compute; eauto).
  assert (H2 : is_Some (blocks owned_store !! 2%positive))
    by (vm_compute; eauto).
  split; [vm_compute; reflexivity|]. split; [exact H3|].
  split; [reflexivity|]. split; [reflexivity|]. split; [reflexivity|].
  split; [exact H2|].
  apply (resolveFromIndexList_rc_owned 2 owned_store 3%positive 3%positive
           [None; Some (mkShared 2%positive 2%positive)] nested_ty 1%nat
           [0%nat] pair_ty (Some (mkShared 2%positive 2%positive)));
    try reflexivity; try (vm_compute; reflexivity); assumption.
Defined.

(** What [constructFromLLVMType] returns is such a receiver: resolving
    a path with a struct step on it ends in the invalid free. *)
Example resolve_on_constructed :
  match constructFromLLVMType_rc nested_ty empty_store with
  | Ok (Some sp) st =>
      resolveFromIndexList_rc 3 (pointee sp) nested_ty [1; 0]%nat st
      = Undefined InvalidFree
  | _ => False
  end.
Proof. vm_compute. reflexivity. Qed.

(** On a receiver from plain [new] that nobody owns the call returns
    the node of slot 1, slot 0; the receiver and the aggregate of
    slot 1, which had no other owner, are deleted on the way. *)
Example resolve_on_unowned :
  match resolveFromIndexList_rc 3 3%positive nested_ty [1; 0]%nat unowned_store with
  | Ok (Some sp) st =>
      rc_load 1 st (pointee sp) = Some (InputInfo None None None) /\
      objs st !! 3%positive = None /\ objs st !! 2%positive = None
  | _ => False
  end.
Proof. vm_compute. repeat split; reflexivity. Qed.

End OwnershipFacts.

Section OwnershipMore.
Import TypeOps StructInfoOps.




End OwnershipMore.

Section SelfReference.

(** X16: on a struct that holds a pointer-like wrapper around the
    struct itself, shape derivation does not return, whatever the
    budget: nothing in the recursion remembers the types already
    visited. *)
Theorem constructFromLLVMType_in_self_pointer (tbl : TypeTable) t w cs ws :
  tbl !! t = Some (mkDesc true cs) ->
  w ∈ cs ->
  tbl !! w = Some (mkDesc false (t :: ws)) ->
  forall fuel,
    constructFromLLVMType_in fuel tbl t = None /\
    constructFromLLVMType_in fuel tbl w = None.
Proof.
  intros Ht Hw Hwd fuel. induction fuel as [|fuel [IHt IHw]]; [split; reflexivity|].
  cbn [constructFromLLVMType_in]. rewrite Ht, Hwd.
  cbn [descContained descIsStruct]. split; [|exact IHt].
  destruct cs as [|c0 cs']; [now apply elem_of_nil in Hw|].
  assert (Hm : mapM (constructFromLLVMType_in fuel tbl) (c0 :: cs') = None).
  { apply mapM_None_2. apply Exists_exists. exists w. split; [exact Hw|exact IHw]. }
  now rewrite Hm.
Qed.

Lemma constructFromLLVMType_in_self_pointer_witness :
  list_node_table !! 1%positive = Some (mkDesc true [3%positive; 2%positive]) /\
  2%positive ∈ [3%positive; 2%positive] /\
  list_node_table !! 2%positive = Some (mkDesc false [1%positive]) /\
  forall fuel,
    constructFromLLVMType_in fuel list_node_table 1%positive = None /\
    constructFromLLVMType_in fuel list_node_table 2%positive = None.
Proof.
  assert (Hin : 2%positive ∈ [3%positive; 2%positive])
    by (apply list_elem_of_In; right; left; reflexivity).
  split; [vm_compute; reflexivity|]. split; [exact Hin|].
  split; [vm_compute; reflexivity|].
  apply (constructFromLLVMType_in_self_pointer list_node_table 1%positive
           2%positive [3%positive; 2%positive] []);
    [vm_compute; reflexivity|exact Hin|vm_compute; reflexivity].
Defined.

End SelfReference.
